(** * Web-Scraping-Tool-PoC: the concurrent e-mail verification engine

    A shallow embedding of [core/email_checker.py], [core/get_csrf.py],
    [core/worker.py] and of the queue, producer and worker pool of
    [run.py] they run in, followed by the properties of the engine.

    Conventions.  Python [int]s are [Z]; [str] is [string]; a [dict] is a
    [gmap]; [None] is [None]; an exception is an explicit result
    constructor.  What the network answers is an argument of the function
    that makes the request. *)

From Stdlib Require Import ZArith String Ascii List Bool Lia.
From stdpp Require Import base tactics option list gmap strings.
From stdpp Require Import fin vector finite pretty.

Local Open Scope string_scope.
Local Open Scope list_scope.
Local Open Scope Z_scope.

Local Set Warnings "-register-all".

(** ** Python [str]: the [in] operator *)

Module Str.

(** [s.startswith(p)] *)
Fixpoint startswith (p s : string) : bool :=
  match p, s with
  | EmptyString, _ => true
  | String _ _, EmptyString => false
  | String a p', String b s' => Ascii.eqb a b && startswith p' s'
  end.

(** [needle in hay] on two [str] values: [needle] occurs in [hay] at some
    offset. *)
Fixpoint contains (needle hay : string) : bool :=
  startswith needle hay
  || match hay with
     | EmptyString => false
     | String _ rest => contains needle rest
     end.

(** [needle] is a substring of [hay]. *)
Definition occurs (needle hay : string) : Prop :=
  exists before after, hay = before +:+ needle +:+ after.

End Str.

(** ** What a request gives back *)

(** The exception classes the two request functions tell apart, in the
    order of their [except] clauses; [HTTPError] is what
    [raise_for_status] raises, [OtherException] anything else that is an
    [Exception]. *)
Inductive exn :=
| Timeout
| ProxyError
| SSLError
| HTTPError
| RequestException
| OtherException.

(** A [requests.Response] as far as the code reads it.  [B] is how the
    body is looked at: the text itself, or the document
    [BeautifulSoup(response.text, 'html.parser')] makes of it. *)
Record response (B : Type) := Response { status_code : Z; text : B }.
Arguments Response {B} _ _.
Arguments status_code {B} _.
Arguments text {B} _.

(** [session.get(...)] / [session.post(...)]: a response, or a raise. *)
Inductive outcome (B : Type) :=
| Responded (r : response B)
| Raised (e : exn).
Arguments Responded {B} _.
Arguments Raised {B} _.

(** The statuses both request functions turn away by name: rate limit,
    unauthorized, forbidden, and the two redirects. *)
Definition blocking_status (status : Z) : Prop :=
  status = 429 \/ status = 401 \/ status = 403 \/ status = 301 \/ status = 302.

(** The statuses with which control leaves the first [try] block of
    [get_csrf_token] and reaches the parsing of the page: not turned away
    by name, and not an error for [raise_for_status]. *)
Definition reaches_parsing (status : Z) : Prop :=
  ~ blocking_status status /\ ~ (400 <= status < 600).

(** ** urllib3 [Retry] objects and the session's adapters *)

Record Retry := {
  total : Z;
  backoff_factor : Z;
  status_forcelist : list Z;
  raise_on_status : bool;
  raise_on_redirect : bool
}.

Module RetryPolicy.




End RetryPolicy.

(** A [requests.Session] as far as the retry policy goes: the adapter
    mounted under each URL prefix. *)
Record session := { adapters : gmap string Retry }.

Definition mount (prefix : string) (adapter : Retry) (s : session) : session :=
  {| adapters := <[prefix := adapter]> (adapters s) |}.

(** ** core/email_checker.py *)

Module EmailChecker.

Definition RETRY_STRATEGY : Retry := {|
  total := 3;
  backoff_factor := 1;
  status_forcelist := [429; 500; 502; 503; 504];
  raise_on_status := false;
  raise_on_redirect := false
|}.

Definition RETRY_ADAPTER : Retry := RETRY_STRATEGY.

(** The first two statements of [check_email]. *)
Definition mount_adapters (s : session) : session :=
  mount "http://" RETRY_ADAPTER (mount "https://" RETRY_ADAPTER s).

(** [check_email(email, session, token, proxies, headers, timeout)], with
    [post] the outcome of its [session.post(...)].  The result is the
    pair [(email, status)] or [None]. *)
Definition check_email (email : string) (post : outcome string)
  : option (string * string) :=
  match post with
  | Responded response =>
      if status_code response =? 429 then None
      else if status_code response =? 403 then None
      else if status_code response =? 401 then None
      else if (status_code response =? 301) || (status_code response =? 302)
      then None
      else
        let body := text response in
        if Str.contains "already associated with an account" body
        then Some (email, "Registered")
        else if Str.contains "is available" body
                || Str.contains "looks good" body
        then Some (email, "Not registered")
        else Some (email, "Unclear")
  | Raised Timeout => None
  | Raised ProxyError => None
  | Raised SSLError => None
  | Raised HTTPError => None
  | Raised RequestException => None
  | Raised OtherException => None
  end.

(** The three strings a classification can be. *)
Definition classification (s : string) : Prop :=
  s = "Registered" \/ s = "Not registered" \/ s = "Unclear".

End EmailChecker.

(** ** core/get_csrf.py *)

Module GetCsrf.

Definition retries : Retry := {|
  total := 3;
  backoff_factor := 1;
  status_forcelist := [429; 500; 502; 503; 504];
  raise_on_status := false;
  raise_on_redirect := false
|}.

Definition adapter : Retry := retries.

(** The first two statements of [get_csrf_token]. *)
Definition mount_adapters (s : session) : session :=
  mount "http://" adapter (mount "https://" adapter s).

(** The parsed page: text nodes and tags with their attribute dict. *)
Inductive node :=
| NavigableString (s : string)
| Tag (name : string) (attrs : gmap string string) (contents : list node).

(** All nodes below [n], in document order. *)
Fixpoint descendants (n : node) : list node :=
  match n with
  | NavigableString _ => []
  | Tag _ _ contents => flat_map (fun c => c :: descendants c) contents
  end.

(** Does [n] match [find(name, attrs)]: a tag of that name carrying each
    wanted attribute with that value. *)
Definition matches (name : string) (wanted : list (string * string)) (n : node)
  : bool :=
  match n with
  | NavigableString _ => false
  | Tag nm at_ _ =>
      String.eqb nm name
      && forallb (fun kv => bool_decide (at_ !! kv.1 = Some kv.2)) wanted
  end.

(** [n.find(name, attrs)]: the first matching descendant, or [None]. *)
Definition find (name : string) (wanted : list (string * string)) (n : node)
  : option node :=
  List.find (matches name wanted) (descendants n).

(** [tag[key]]: [None] stands for the [KeyError]. *)
Definition getitem (n : node) (key : string) : option string :=
  match n with
  | NavigableString _ => None
  | Tag _ at_ _ => at_ !! key
  end.

(** The second [try] block: the token, or [None] when the block ends in
    [RuntimeError] (no [auto-check] element, no hidden input in it, no
    [value] attribute, or an empty value). *)
Definition parse_token (soup : node) : option string :=
  match find "auto-check" [("src", "/email_validity_checks")] soup with
  | None => None
  | Some auto_check =>
      match find "input" [("type", "hidden"); ("data-csrf", "true")] auto_check with
      | None => None
      | Some csrf_input =>
          match getitem csrf_input "value" with
          | None => None
          | Some token => if String.eqb token EmptyString then None else Some token
          end
      end
  end.

(** [response.raise_for_status()]: [HTTPError] on 4xx and 5xx. *)
Definition raise_for_status {B} (r : response B) : option exn :=
  if (400 <=? status_code r) && (status_code r <? 600)
  then Some HTTPError else None.

(** What a call of [get_csrf_token] ends in. *)
Inductive result :=
| Return (token : option string)
| RuntimeError.

(** The [except] clauses of the first [try] block. *)
Definition except_clauses (e : exn) : result :=
  match e with
  | Timeout => Return None
  | ProxyError => Return None
  | SSLError => Return None
  | HTTPError => Return None
  | RequestException => Return None
  | OtherException => Return None
  end.

(** The first [try] block, with [get] the outcome of its
    [session.get(...)]: [inl] when the function returns from inside the
    block, [inr] when control leaves the block with the response. *)
Definition request_page (get : outcome node) : result + response node :=
  match get with
  | Raised e => inl (except_clauses e)
  | Responded response =>
      if status_code response =? 429 then inl (Return None)
      else if status_code response =? 403 then inl (Return None)
      else if status_code response =? 401 then inl (Return None)
      else if (status_code response =? 301) || (status_code response =? 302)
      then inl (Return None)
      else
        match raise_for_status response with
        | Some e => inl (except_clauses e)
        | None => inr response
        end
  end.

(** [get_csrf_token(session, proxies, headers)]. *)
Definition get_csrf_token (get : outcome node) : result :=
  match request_page get with
  | inl r => r
  | inr response =>
      match parse_token (text response) with
      | Some token => Return (Some token)
      | None => RuntimeError
      end
  end.

End GetCsrf.

(** ** [queue.Queue] as the engine uses it *)

Module Queue.

Record t := {
  items : list string;
  unfinished_tasks : Z;
  maxsize : Z
}.

Definition empty (maxsize : Z) : t :=
  {| items := []; unfinished_tasks := 0; maxsize := maxsize |}.

Definition qsize (q : t) : Z := Z.of_nat (length (items q)).

(** A queue with [maxsize <= 0] is never full. *)
Definition full (q : t) : bool :=
  (0 <? maxsize q) && (maxsize q <=? qsize q).

(** [q.put(item)] without timeout: [None] while the caller has to wait
    for a free slot. *)
Definition put (item : string) (q : t) : option t :=
  if full q then None
  else Some {| items := items q ++ [item];
               unfinished_tasks := unfinished_tasks q + 1;
               maxsize := maxsize q |}.

(** [q.get(timeout=5)]: [None] is [queue.Empty], raised when the wait
    ends on an empty queue. *)
Definition get (q : t) : option (string * t) :=
  match items q with
  | [] => None
  | item :: rest =>
      Some (item, {| items := rest;
                     unfinished_tasks := unfinished_tasks q;
                     maxsize := maxsize q |})
  end.

(** [q.task_done()]: [None] is its [ValueError] (called more often than
    there were items). *)
Definition task_done (q : t) : option t :=
  let unfinished := unfinished_tasks q - 1 in
  if unfinished <? 0 then None
  else Some {| items := items q;
               unfinished_tasks := unfinished;
               maxsize := maxsize q |}.

End Queue.

(** ** core/worker.py *)

Module Worker.

Definition max_attempts : Z := 10.

(** Where a worker thread stands in [worker].  *)
Inductive pc :=
| Acquiring (attempt : Z)            (* body of the [for], lines 56-63 *)
| Loop                               (* the [while] test, line 71 *)
| Checking (email : string)          (* [check_email], line 79 *)
| Requeue (email : string)           (* [q.put(email)], lines 82 and 92 *)
| Store (email status : string)      (* [results[email] = status] *)
| Finally (email : string) (leave : bool)  (* the [finally] block *)
| Rotate                             (* after the [while], line 101 *)
| Exited_exhausted                   (* [return], line 66 *)
| Exited_queue_empty                 (* [return], line 76 *)
| Crashed.                           (* an exception left [worker] *)

(** The local variables of one call of [worker]; [identity] counts the
    passes through the acquisition phase that ended in [break]. *)
Record local := {
  at_ : pc;
  session_id : option string;
  token : option string;
  processed_total : Z;
  processed_in_session : Z;
  identity : nat
}.

Definition start : local := {|
  at_ := Acquiring 1;
  session_id := None;
  token := None;
  processed_total := 0;
  processed_in_session := 0;
  identity := 0
|}.

Definition goto (p : pc) (l : local) : local := {|
  at_ := p;
  session_id := session_id l;
  token := token l;
  processed_total := processed_total l;
  processed_in_session := processed_in_session l;
  identity := identity l
|}.

(** What the world answers a worker at its next step: the result of
    [generate_session_and_proxy()] (the session id, or [None] for its
    [RuntimeError]), the outcome of the GET inside [get_csrf_token], and
    the outcome of the POST inside [check_email] ([None]: an exception
    reaches the worker instead of a result). *)
Record input := {
  generated : option string;
  page : outcome GetCsrf.node;
  posted : option (outcome string)
}.

Inductive event :=
| AttemptFailed (attempt : Z)
| Acquired (attempt : Z) (session_id : string)
| BudgetSpent
| QueueEmpty
| Dequeued (email : string)
| CheckSucceeded (email status : string)
| CheckFailed (email : string)
| CheckRaised (email : string)
| Requeued (email : string)
| Recorded (email status : string)
| TaskDone
| TaskDoneValueError
| Rotating.

(** One attempt of the [for] loop: [inl (session_id, token)] when it
    ends in [break], else [inr] with the values the two variables have
    after it. *)
Definition attempt_session (l : local) (i : input)
  : (string * string) + (option string * option string) :=
  match generated i with
  | None => inr (session_id l, token l)
  | Some sid =>
      match GetCsrf.get_csrf_token (page i) with
      | GetCsrf.RuntimeError => inr (Some sid, token l)
      | GetCsrf.Return None => inr (Some sid, None)
      | GetCsrf.Return (Some tok) =>
          if String.eqb tok EmptyString then inr (Some sid, Some tok)
          else inl (sid, tok)
      end
  end.

(** The call at line 79 as the worker sees it. *)
Inductive check_call :=
| Result (r : option (string * string))
| Exception.

Definition call_check_email (email : string) (i : input) : check_call :=
  match posted i with
  | Some post => Result (EmailChecker.check_email email post)
  | None => Exception
  end.

(** [worker(q, worker_id, emails_per_session, results, results_lock)],
    one step at a time, on the shared queue and result dict; [worker_id]
    only names the thread in its log lines, and a step is atomic, which
    is what [results_lock] is for.
    [None]: the thread does not move (it has returned, or waits in
    [q.put]). *)
Definition worker_step (emails_per_session : Z) (l : local)
    (q : Queue.t) (results : gmap string string) (i : input)
  : option (local * Queue.t * gmap string string * event) :=
  match at_ l with
  | Acquiring attempt =>
      match attempt_session l i with
      | inl (sid, tok) =>
          Some ({| at_ := Loop;
                   session_id := Some sid;
                   token := Some tok;
                   processed_total := processed_total l;
                   processed_in_session := 0;
                   identity := S (identity l) |},
                q, results, Acquired attempt sid)
      | inr (sid, tok) =>
          Some ({| at_ := if attempt <? max_attempts
                          then Acquiring (attempt + 1)
                          else Exited_exhausted;
                   session_id := sid;
                   token := tok;
                   processed_total := processed_total l;
                   processed_in_session := processed_in_session l;
                   identity := identity l |},
                q, results, AttemptFailed attempt)
      end
  | Loop =>
      if processed_in_session l <? emails_per_session then
        match Queue.get q with
        | Some (email, q') => Some (goto (Checking email) l, q', results, Dequeued email)
        | None => Some (goto Exited_queue_empty l, q, results, QueueEmpty)
        end
      else Some (goto Rotate l, q, results, BudgetSpent)
  | Checking email =>
      match call_check_email email i with
      | Result None => Some (goto (Requeue email) l, q, results, CheckFailed email)
      | Result (Some (_, status)) =>
          Some (goto (Store email status) l, q, results, CheckSucceeded email status)
      | Exception => Some (goto (Requeue email) l, q, results, CheckRaised email)
      end
  | Requeue email =>
      match Queue.put email q with
      | Some q' => Some (goto (Finally email true) l, q', results, Requeued email)
      | None => None
      end
  | Store email status =>
      Some (goto (Finally email false) l, q, <[email := status]> results,
            Recorded email status)
  | Finally email leave =>
      match Queue.task_done q with
      | Some q' =>
          Some ({| at_ := if leave then Rotate else Loop;
                   session_id := session_id l;
                   token := token l;
                   processed_total := processed_total l + 1;
                   processed_in_session := processed_in_session l + 1;
                   identity := identity l |},
                q', results, TaskDone)
      | None => Some (goto Crashed l, q, results, TaskDoneValueError)
      end
  | Rotate => Some (goto (Acquiring 1) l, q, results, Rotating)
  | Exited_exhausted => None
  | Exited_queue_empty => None
  | Crashed => None
  end.

End Worker.

(** ** run.py: the producer and the pool of workers on one queue *)

Module Engine.

Import Worker.

Inductive actor :=
| Producer
| WorkerThread (w : nat).

#[global] Instance actor_eq_dec : EqDecision actor.
Proof. solve_decision. Defined.

(** One line of the log of what the workers did: which worker, under
    which of its identities, what. *)
Record entry := { by_worker : nat; under : nat; did : event }.

(** The shared objects of [main], the threads, and the log.  [pending]
    are the e-mails [email_producer] has still to put. *)
Record system := {
  q : Queue.t;
  results : gmap string string;
  workers : list local;
  pending : list string;
  trace : list entry
}.

(** [main] after it has started the producer and [n] workers. *)
Definition init (n : nat) (emails : list string) : system := {|
  q := Queue.empty 5000;
  results := ∅;
  workers := replicate n start;
  pending := emails;
  trace := []
|}.

(** One step of one thread; [None] when that thread cannot move. *)
Definition sys_step (emails_per_session : Z) (s : system) (who : actor) (i : input)
  : option system :=
  match who with
  | Producer =>
      match pending s with
      | [] => None
      | email :: rest =>
          match Queue.put email (q s) with
          | Some q' =>
              Some {| q := q'; results := results s; workers := workers s;
                      pending := rest; trace := trace s |}
          | None => None
          end
      end
  | WorkerThread w =>
      match workers s !! w with
      | None => None
      | Some l =>
          match worker_step emails_per_session l (q s) (results s) i with
          | Some (l', q', results', ev) =>
              Some {| q := q'; results := results';
                      workers := <[w := l']> (workers s);
                      pending := pending s;
                      trace := trace s ++ [{| by_worker := w;
                                              under := identity l';
                                              did := ev |}] |}
          | None => None
          end
      end
  end.

(** An interleaving: which thread moves next and what the world answers
    it.  A thread that cannot move is passed over. *)
Abbreviation schedule := (list (actor * input)).

Fixpoint run (emails_per_session : Z) (sched : schedule) (s : system) : system :=
  match sched with
  | [] => s
  | (who, i) :: rest =>
      run emails_per_session rest
        (default s (sys_step emails_per_session s who i))
  end.

(** What worker [w] did, oldest first. *)
Definition history (w : nat) (tr : list entry) : list entry :=
  filter (fun x => by_worker x = w) tr.

Definition events (h : list entry) : list event := did <$> h.

End Engine.

(** ** Reading the log *)

Module Log.

Import Worker Engine.

Definition is_success (ev : event) : bool :=
  match ev with
  | CheckSucceeded _ _ => true
  | _ => false
  end.

(** The number of successful checks in [h] made under identity [k]. *)
Definition successes (k : nat) (h : list entry) : Z :=
  Z.of_nat (length (filter (fun x => under x = k /\ is_success (did x) = true) h)).

(** The failed attempts 1, ..., [n] of one pass through the acquisition
    phase. *)
Definition failed_attempts (n : Z) : list event :=
  AttemptFailed <$> seqZ 1 n.

(** The complete handling of one dequeued candidate. *)
Inductive handling : list event -> Prop :=
| handling_resolved email status :
    handling [Dequeued email; CheckSucceeded email status;
              Recorded email status; TaskDone]
| handling_failed email :
    handling [Dequeued email; CheckFailed email; Requeued email;
              TaskDone; Rotating]
| handling_raised email :
    handling [Dequeued email; CheckRaised email; Requeued email;
              TaskDone; Rotating].

(** The events that are no part of the handling of a candidate. *)
Definition between (ev : event) : Prop :=
  match ev with
  | AttemptFailed _ | Acquired _ _ | BudgetSpent | QueueEmpty | Rotating => True
  | _ => False
  end.

(** A history in which every handling that was begun is complete. *)
Inductive settled : list event -> Prop :=
| settled_nil : settled []
| settled_between h ev : settled h -> between ev -> settled (h ++ [ev])
| settled_handling h b : settled h -> handling b -> settled (h ++ b).

(** The events of the handling a worker at [p] is in the middle of. *)
Definition in_progress (p : pc) (b : list event) : Prop :=
  match p with
  | Checking email => b = [Dequeued email]
  | Requeue email =>
      b = [Dequeued email; CheckFailed email]
      \/ b = [Dequeued email; CheckRaised email]
  | Store email status => b = [Dequeued email; CheckSucceeded email status]
  | Finally email true =>
      b = [Dequeued email; CheckFailed email; Requeued email]
      \/ b = [Dequeued email; CheckRaised email; Requeued email]
  | Finally email false =>
      exists status,
        b = [Dequeued email; CheckSucceeded email status; Recorded email status]
  | Rotate =>
      b = []
      \/ exists email,
           b = [Dequeued email; CheckFailed email; Requeued email; TaskDone]
           \/ b = [Dequeued email; CheckRaised email; Requeued email; TaskDone]
  | _ => b = []
  end.

(** A worker holds a dequeued candidate it has not yet marked done. *)
Definition in_flight (p : pc) : Z :=
  match p with
  | Checking _ | Requeue _ | Store _ _ | Finally _ _ => 1
  | _ => 0
  end.

Definition in_flight_total (ws : list local) : Z :=
  foldr (fun l n => in_flight (at_ l) + n) 0 ws.

(** The count of unfinished tasks is the candidates in the queue plus
    those held by workers. *)
Definition accounted (s : system) : Prop :=
  Queue.unfinished_tasks (q s)
  = Queue.qsize (q s) + in_flight_total (workers s).

(** Counting events of one kind. *)
Definition count (kind : event -> bool) (h : list event) : Z :=
  Z.of_nat (length (List.filter kind h)).





Definition is_acquired (ev : event) : bool :=
  match ev with Acquired _ _ => true | _ => false end.




(** An attempt at an identity that cannot end in [break]: the session
    cannot be made, or [get_csrf_token] gives no token. *)
Definition acquisition_fails (i : input) : Prop :=
  generated i = None
  \/ GetCsrf.get_csrf_token (page i) = GetCsrf.Return None
  \/ GetCsrf.get_csrf_token (page i) = GetCsrf.RuntimeError.

(** How often the schedule lets worker [w] move. *)
Definition scheduled (w : nat) (sched : schedule) : Z :=
  Z.of_nat (length (filter (fun x => x.1 = WorkerThread w) sched)).

(** *** What holds of each worker and its own history *)

(** The session budget. *)
Definition budget_inv (emails_per_session : Z) (l : local) (h : list entry)
  : Prop :=
  (forall j, successes j h <= Z.max 0 emails_per_session)
  /\ (forall j, (identity l < j)%nat -> successes j h = 0)
  /\ match at_ l with
     | Loop =>
         0 <= processed_in_session l <= Z.max 0 emails_per_session
         /\ successes (identity l) h <= processed_in_session l
     | Checking _ | Requeue _ | Finally _ true =>
         0 <= processed_in_session l < emails_per_session
         /\ successes (identity l) h <= processed_in_session l
     | Store _ _ | Finally _ false =>
         0 <= processed_in_session l < emails_per_session
         /\ successes (identity l) h <= processed_in_session l + 1
     | _ => True
     end.

(** How the worker came to where it stands in the acquisition phase, or
    to its [return]. *)
Definition exit_inv (l : local) (evs : list event) : Prop :=
  match at_ l with
  | Acquiring n =>
      1 <= n <= max_attempts
      /\ exists h0, evs = h0 ++ failed_attempts (n - 1)
  | Exited_exhausted => exists h0, evs = h0 ++ failed_attempts max_attempts
  | Exited_queue_empty => exists h0, evs = h0 ++ [QueueEmpty]
  | Crashed => False
  | _ => True
  end.

(** Complete handlings, then the one in progress. *)
Definition shape_inv (l : local) (evs : list event) : Prop :=
  exists h0 b, evs = h0 ++ b /\ settled h0 /\ in_progress (at_ l) b.

(** The identities of a worker are numbered by its acquisitions. *)
Definition numbered_inv (l : local) (evs : list event) : Prop :=
  Z.of_nat (identity l) = count is_acquired evs.

Definition worker_inv (emails_per_session : Z) (l : local) (h : list entry)
  : Prop :=
  budget_inv emails_per_session l h
  /\ exit_inv l (events h)
  /\ shape_inv l (events h)
  /\ numbered_inv l (events h).

(** What holds of the whole engine. *)
Definition invariant (emails_per_session : Z) (s : system) : Prop :=
  accounted s
  /\ (forall w l, workers s !! w = Some l ->
        worker_inv emails_per_session l (history w (trace s)))
  /\ (forall w, workers s !! w = None -> history w (trace s) = []).

End Log.

(** ** Drawing at random *)

(** [''.join(random.choices(population, k=k))] and
    [random.choice(population)], with the draws of the generator given:
    indices into the population. *)
Definition choices {n k} (population : vec ascii n) (picks : vec (fin n) k)
  : string :=
  string_of_list_ascii (vec_to_list (vmap (fun i => population !!! i) picks)).

Definition choice {A n} (population : vec A n) (pick : fin n) : A :=
  population !!! pick.

(** A dict display [{k1: v1, k2: v2, ...}]: a key written twice keeps the
    later value. *)
Definition dict_display (items : list (string * string)) : gmap string string :=
  foldl (fun m kv => <[kv.1 := kv.2]> m) ∅ items.

(** ** core/proxy_session_manager.py *)

Module ProxySessionManager.

Definition hex_digits : vec ascii 16 :=
  [# "a"; "b"; "c"; "d"; "e"; "f"; "0"; "1";
     "2"; "3"; "4"; "5"; "6"; "7"; "8"; "9"]%char.

Definition username : string := "user-spyasdasdasd-sessionduration-1".
Definition password : string := "asdasdasdasdz~".

(** The f-string of the proxy URL. *)
Definition proxy_url (session_id : string) (port : Z) : string :=
  "http://" +:+ username +:+ "-session-" +:+ session_id +:+ ":"
  +:+ password +:+ "@gate.decodo.com:" +:+ pretty port.

(** [generate_session_and_proxy()], with [made] what [requests.Session()]
    gave ([None] when it raised), [picks] the eight draws of
    [random.choices] and [port] the draw of [random.randint(10001, 49999)].
    [None] is the [RuntimeError]. *)
Definition generate_session_and_proxy
    (made : option session) (picks : vec (fin 16) 8) (port : Z)
  : option (session * gmap string string * string) :=
  match made with
  | Some session =>
      let session_id := choices hex_digits picks in
      let url := proxy_url session_id port in
      let proxies := dict_display [("http", url); ("https", url)] in
      Some (session, proxies, session_id)
  | None => None
  end.

End ProxySessionManager.

(** ** core/get_headers.py *)

Module GetHeaders.

Definition USER_AGENTS : vec string 5 :=
  [# "Mozilla/5.0 (Macintosh; Intel Mac OS X 13_5_2) AppleWebKit/537.36 (KHTML, like Gecko) Chrome/117.0.0.0 Safari/537.36";
     "Mozilla/5.0 (Windows NT 10.0; Win64; x64; rv:109.0) Gecko/20100101 Firefox/117.0";
     "Mozilla/5.0 (X11; Linux x86_64) AppleWebKit/537.36 (KHTML, like Gecko) Chrome/114.0.0.0 Safari/537.36";
     "Mozilla/5.0 (Macintosh; Intel Mac OS X 10_15_7) AppleWebKit/537.36 (KHTML, like Gecko) Chrome/125.0.6422.113 Safari/537.36";
     "Mozilla/5.0 (Macintosh; Intel Mac OS X 10_15_7) AppleWebKit/537.36 (KHTML, like Gecko) Chrome/138.0.0.0 Safari/537.36" ].

(** The double quote, and a text between two of them. *)
Definition quote : string := String (ascii_of_N 34) EmptyString.
Definition quoted (s : string) : string := quote +:+ s +:+ quote.

Definition sec_ch_ua : string :=
  quoted "Not.A/Brand" +:+ ";v=" +:+ quoted "8" +:+ ", "
  +:+ quoted "Chromium" +:+ ";v=" +:+ quoted "126" +:+ ", "
  +:+ quoted "Google Chrome" +:+ ";v=" +:+ quoted "126".

(** [generate_headers()], with [pick] the draw of [random.choice]: the
    pair [(headers_get, headers_post)]. *)
Definition generate_headers (pick : fin 5)
  : gmap string string * gmap string string :=
  let user_agent := choice USER_AGENTS pick in
  let headers_get := dict_display
    [ ("Host", "github.com");
      ("Connection", "keep-alive");
      ("User-Agent", user_agent);
      ("Accept", "*/*");
      ("Referer", "https://github.com/");
      ("sec-ch-ua", sec_ch_ua);
      ("sec-ch-ua-platform", quoted "macOS");
      ("sec-ch-ua-mobile", "?0");
      ("Sec-Fetch-Site", "none");
      ("Sec-Fetch-Mode", "navigate");
      ("Sec-Fetch-Dest", "document");
      ("Accept-Encoding", "gzip, deflate, br, zstd");
      ("Accept-Language", "en-US,en;q=0.9") ] in
  let headers_post := dict_display
    [ ("Host", "github.com");
      ("Connection", "keep-alive");
      ("sec-ch-ua-platform", quoted "macOS");
      ("User-Agent", user_agent);
      ("Content-Type", "application/x-www-form-urlencoded");
      ("Accept", "*/*");
      ("Origin", "https://github.com");
      ("Referer", "https://github.com/signup");
      ("sec-ch-ua", sec_ch_ua);
      ("sec-ch-ua-platform", quoted "macOS");
      ("sec-ch-ua-mobile", "?0");
      ("Sec-Fetch-Site", "same-origin");
      ("Sec-Fetch-Mode", "cors");
      ("Sec-Fetch-Dest", "empty");
      ("Accept-Encoding", "gzip, deflate, br, zstd");
      ("Accept-Language", "en-US,en;q=0.9") ] in
  (headers_get, headers_post).

End GetHeaders.

(** ** generateEmails.py *)

Module GenerateEmails.

(** [string.ascii_lowercase + string.digits] *)
Definition letters_and_digits : vec ascii 36 :=
  [# "a"; "b"; "c"; "d"; "e"; "f"; "g"; "h"; "i"; "j"; "k"; "l"; "m";
     "n"; "o"; "p"; "q"; "r"; "s"; "t"; "u"; "v"; "w"; "x"; "y"; "z";
     "0"; "1"; "2"; "3"; "4"; "5"; "6"; "7"; "8"; "9"]%char.

(** [generate_random_email()], with the ten draws of [random.choices]. *)
Definition generate_random_email (picks : vec (fin 36) 10) : string :=
  let username := choices letters_and_digits picks in
  username +:+ "@gmail.com".

Definition newline : string := String (ascii_of_N 10) EmptyString.

(** The script: the e-mails it generates, and the lines it writes to
    [random_emails.txt], one draw of ten per e-mail. *)
Definition emails (draws : vec (vec (fin 36) 10) 5000) : list string :=
  vec_to_list (vmap generate_random_email draws).

Definition written_lines (draws : vec (vec (fin 36) 10) 5000) : list string :=
  (fun email => email +:+ newline) <$> emails draws.

End GenerateEmails.

(** ** core/email_loader.py *)

Module EmailLoader.

(** A [str] is held as the bytes of its UTF-8 encoding. *)
Definition encoded (bytes : list Z) : list ascii :=
  (fun b => ascii_of_N (Z.to_N b)) <$> bytes.

(** The characters for which [str.isspace()] holds, encoded: U+0009 to
    U+000D, U+001C to U+0020, U+0085, U+00A0, U+1680, U+2000 to U+200A,
    U+2028, U+2029, U+202F, U+205F and U+3000. *)
Definition whitespace : list (list ascii) :=
  [ encoded [9]; encoded [10]; encoded [11]; encoded [12]; encoded [13];
    encoded [28]; encoded [29]; encoded [30]; encoded [31]; encoded [32];
    encoded [194; 133]; encoded [194; 160];
    encoded [225; 154; 128];
    encoded [226; 128; 128]; encoded [226; 128; 129]; encoded [226; 128; 130];
    encoded [226; 128; 131]; encoded [226; 128; 132]; encoded [226; 128; 133];
    encoded [226; 128; 134]; encoded [226; 128; 135]; encoded [226; 128; 136];
    encoded [226; 128; 137]; encoded [226; 128; 138];
    encoded [226; 128; 168]; encoded [226; 128; 169]; encoded [226; 128; 175];
    encoded [226; 129; 159];
    encoded [227; 128; 128] ].

(** [l] begins with [w]. *)
Fixpoint starts (w l : list ascii) : bool :=
  match w, l with
  | [], _ => true
  | _ :: _, [] => false
  | a :: w', b :: l' => Ascii.eqb a b && starts w' l'
  end.

(** What is left of [l] after its first character, when that is one of
    [ws]. *)
Definition after_space (ws : list (list ascii)) (l : list ascii)
  : option (list ascii) :=
  match List.find (fun w => starts w l) ws with
  | Some w => Some (drop (length w) l)
  | None => None
  end.

(** The loop that moves past leading characters of [ws]; it ends before
    the fuel does when the fuel is the length of [l]. *)
Fixpoint lstrip_from (ws : list (list ascii)) (fuel : nat) (l : list ascii)
  : list ascii :=
  match fuel with
  | O => l
  | S fuel =>
      match after_space ws l with
      | Some rest => lstrip_from ws fuel rest
      | None => l
      end
  end.

Definition lstrip_chars (l : list ascii) : list ascii :=
  lstrip_from whitespace (length l) l.

Definition rstrip_chars (l : list ascii) : list ascii :=
  rev (lstrip_from (map (@rev ascii) whitespace) (length l) (rev l)).

(** [s.strip()] *)
Definition strip (s : string) : string :=
  string_of_list_ascii (rstrip_chars (lstrip_chars (list_ascii_of_string s))).

(** [email_producer(email_file, q)], with [lines] what iterating over the
    open file gives: the e-mails it puts, in the order of the puts. *)
Definition email_producer (lines : list string) : list string :=
  flat_map (fun line =>
              let email := strip line in
              if String.eqb email EmptyString then [] else [email])
           lines.

(** [s] is whitespace characters only. *)
Definition spaces (s : string) : Prop :=
  exists ts, Forall (fun t => t ∈ whitespace) ts
             /\ list_ascii_of_string s = concat ts.

(** [s] begins, or ends, with a whitespace character. *)
Definition space_at_start (s : string) : Prop :=
  exists w rest, w ∈ whitespace /\ list_ascii_of_string s = w ++ rest.

Definition space_at_end (s : string) : Prop :=
  exists w front, w ∈ whitespace /\ list_ascii_of_string s = front ++ w.

End EmailLoader.

(** ** The ledger of candidates *)

Module Ledger.

Import Worker Engine.

(** The candidate a worker has taken off the queue and neither put back
    nor stored yet. *)
Definition held (p : pc) : list string :=
  match p with
  | Checking email | Requeue email | Store email _ => [email]
  | _ => []
  end.

Definition held_total (ws : list local) : list string :=
  flat_map (fun l => held (at_ l)) ws.

(** What an event wrote into the result dict. *)
Definition recorded (ev : event) : option (string * string) :=
  match ev with
  | Recorded email status => Some (email, status)
  | _ => None
  end.

(** The candidates stored so far, in the order of the stores. *)
Definition resolved (tr : list entry) : list string :=
  omap (fun x => fst <$> recorded (did x)) tr.

(** The dict that results from doing the stores of the log in order. *)
Definition replay (tr : list entry) : gmap string string :=
  foldl (fun m x => match recorded (did x) with
                    | Some (email, status) => <[email := status]> m
                    | None => m
                    end) ∅ tr.

(** How often [email] occurs in [l]. *)
Definition occurrences (email : string) (l : list string) : nat :=
  count_occ string_dec l email.

(** Where every candidate of the input is. *)
Definition whereabouts (s : system) : list string :=
  pending s ++ Queue.items (q s) ++ held_total (workers s)
  ++ resolved (trace s).

(** A worker that has left [worker] by one of its two [return]s. *)
Definition returned (l : local) : Prop :=
  at_ l = Exited_exhausted \/ at_ l = Exited_queue_empty.

(** The program points between a [break] out of the [for] loop and the
    end of the [while] loop. *)
Definition in_session (p : pc) : Prop :=
  match p with
  | Loop | Checking _ | Requeue _ | Store _ _ | Finally _ _ => True
  | _ => False
  end.

(** The worker has a session id and a token that is not empty. *)
Definition armed (l : local) : Prop :=
  exists sid tok,
    session_id l = Some sid /\ token l = Some tok /\ tok <> EmptyString.

End Ledger.

(** ** The first match of a search *)

(** [x] is the first element of [l] that [f] accepts. *)
Definition first_match {A} (f : A -> bool) (l : list A) (x : A) : Prop :=
  exists before after,
    l = before ++ x :: after /\ f x = true
    /\ Forall (fun y => f y = false) before.

(** ** Fixtures *)

Module Fixtures.

Import Worker Engine.

(** A signup page carrying the hidden token field. *)
Definition signup_page : GetCsrf.node :=
  GetCsrf.Tag "[document]" ∅
    [GetCsrf.Tag "html" ∅
       [GetCsrf.NavigableString "Sign up";
        GetCsrf.Tag "auto-check" {[ "src" := "/email_validity_checks" ]}
          [GetCsrf.Tag "input"
             (<["type" := "hidden"]>
                (<["data-csrf" := "true"]> {[ "value" := "tok-1" ]}))
             []]]].

(** A page with nothing in it. *)
Definition empty_page : GetCsrf.node := GetCsrf.Tag "[document]" ∅ [].

(** The world answers every request with status 200, the POST with
    [body]. *)
Definition answering (body : string) : input := {|
  generated := Some "0a1b2c3d";
  page := Responded (Response 200 signup_page);
  posted := Some (Responded (Response 200 body))
|}.


(** No session can be made. *)
Definition no_session : input := {|
  generated := None;
  page := Raised ProxyError;
  posted := Some (Raised ProxyError)
|}.

Definition two_emails : list string := ["a@x.com"; "taken@x.com"].

(** One worker, budget 1: both e-mails go in, the worker takes an
    identity, resolves the first e-mail and is back at the loop test. *)
Definition one_resolved : schedule :=
  [(Producer, no_session); (Producer, no_session);
   (WorkerThread 0, answering EmptyString);
   (WorkerThread 0, answering EmptyString);
   (WorkerThread 0, answering "a@x.com is available");
   (WorkerThread 0, answering EmptyString);
   (WorkerThread 0, answering EmptyString)].


(** Eleven moves of worker 0, no session ever. *)
Definition never_a_session : schedule :=
  replicate 11 (WorkerThread 0, no_session).

End Fixtures.

(** ** More fixtures *)

Module Scenario.

Import Worker Engine Fixtures.

(** One worker, budget 2: it takes an identity and resolves both
    e-mails, the second one as taken. *)
Definition both_resolved : schedule :=
  [(Producer, no_session); (Producer, no_session);
   (WorkerThread 0, answering EmptyString);
   (WorkerThread 0, answering EmptyString);
   (WorkerThread 0, answering "a@x.com is available");
   (WorkerThread 0, answering EmptyString);
   (WorkerThread 0, answering EmptyString);
   (WorkerThread 0, answering EmptyString);
   (WorkerThread 0, answering "already associated with an account");
   (WorkerThread 0, answering EmptyString);
   (WorkerThread 0, answering EmptyString)].

(** The producer puts one e-mail, and the only worker gives up. *)
Definition stranded : schedule :=
  (Producer, no_session) :: replicate 10 (WorkerThread 0, no_session).

End Scenario.

(** * Properties *)

(** ** The [in] operator finds exactly the substrings *)

Section StrFacts.
Import Str.

Lemma startswith_spec p s :
  startswith p s = true <-> exists rest, s = p +:+ rest.
Proof.
  revert s; induction p as [|a p IH]; intros s; simpl.
  - split; [intros _; exists s; reflexivity | reflexivity].
  - destruct s as [|b s].
    + split; [discriminate | intros [r Hr]; discriminate].
    + rewrite andb_true_iff, Ascii.eqb_eq, IH. split.
      * intros [-> [r ->]]. exists r. reflexivity.
      * intros [r Hr]. injection Hr as -> ->. split; [reflexivity | eauto].
Qed.

Lemma contains_spec needle hay :
  contains needle hay = true <-> occurs needle hay.
Proof.
  unfold occurs. induction hay as [|c hay IH]; simpl.
  - rewrite orb_false_r, startswith_spec. split.
    + intros [r Hr]. exists EmptyString, r. exact Hr.
    + intros [b [a Ha]]. destruct b; [exists a; exact Ha | discriminate].
  - rewrite orb_true_iff, startswith_spec, IH. split.
    + intros [[r Hr] | [b [a Ha]]].
      * exists EmptyString, r. exact Hr.
      * exists (String c b), a. simpl. rewrite Ha. reflexivity.
    + intros [b [a Ha]]. destruct b as [|c' b].
      * left. exists a. exact Ha.
      * right. simpl in Ha. injection Ha as _ Ha. eauto.
Qed.

Lemma contains_false needle hay :
  contains needle hay = false <-> ~ occurs needle hay.
Proof.
  rewrite <- contains_spec. destruct (contains needle hay); split; congruence.
Qed.

End StrFacts.

(** ** [check_email] *)

Lemma blocking_status_eqb status :
  blocking_status status <->
  (status =? 429) || (status =? 403) || (status =? 401)
  || ((status =? 301) || (status =? 302)) = true.
Proof.
  unfold blocking_status. rewrite !orb_true_iff, !Z.eqb_eq. tauto.
Qed.

Lemma blocking_status_dec status :
  {blocking_status status} + {~ blocking_status status}.
Proof.
  destruct ((status =? 429) || (status =? 403) || (status =? 401)
            || ((status =? 301) || (status =? 302))) eqn:E.
  - left. apply blocking_status_eqb, E.
  - right. rewrite blocking_status_eqb, E. discriminate.
Qed.

Section CheckEmail.
Import Str EmailChecker.

(** Past the status tests the answer is decided by the body alone. *)
Lemma check_email_body email r :
  ~ blocking_status (status_code r) ->
  check_email email (Responded r) =
    Some (email,
          if contains "already associated with an account" (text r)
          then "Registered"
          else if contains "is available" (text r)
                  || contains "looks good" (text r)
          then "Not registered" else "Unclear").
Proof.
  intros Hnb. rewrite blocking_status_eqb in Hnb. unfold check_email.
  destruct (status_code r =? 429); [exfalso; apply Hnb; reflexivity|].
  destruct (status_code r =? 403); [exfalso; apply Hnb; reflexivity|].
  destruct (status_code r =? 401); [exfalso; apply Hnb; reflexivity|].
  destruct ((status_code r =? 301) || (status_code r =? 302));
    [exfalso; apply Hnb; reflexivity|].
  cbv zeta.
  destruct (contains "already associated with an account" (text r)); [reflexivity|].
  destruct (contains "is available" (text r) || contains "looks good" (text r));
    reflexivity.
Qed.

Lemma check_email_blocked email r :
  blocking_status (status_code r) -> check_email email (Responded r) = None.
Proof.
  intros Hb. rewrite blocking_status_eqb in Hb. unfold check_email.
  destruct (status_code r =? 429); [reflexivity|].
  destruct (status_code r =? 403); [reflexivity|].
  destruct (status_code r =? 401); [reflexivity|].
  destruct ((status_code r =? 301) || (status_code r =? 302));
    [reflexivity | discriminate].
Qed.

Lemma check_email_raised email e : check_email email (Raised e) = None.
Proof. destruct e; reflexivity. Qed.

(** C2.  For a response that [check_email] classifies (its status is
    none of those turned away before the body is read): a body
    containing "already associated with an account" gives Registered;
    otherwise a body containing "is available" or "looks good" gives
    "Not registered"; any other body gives Unclear. *)
Theorem check_email_classification_mapping email r :
  ~ blocking_status (status_code r) ->
  (occurs "already associated with an account" (text r) ->
   check_email email (Responded r) = Some (email, "Registered"))
  /\ (~ occurs "already associated with an account" (text r) ->
      occurs "is available" (text r) \/ occurs "looks good" (text r) ->
      check_email email (Responded r) = Some (email, "Not registered"))
  /\ (~ occurs "already associated with an account" (text r) ->
      ~ occurs "is available" (text r) ->
      ~ occurs "looks good" (text r) ->
      check_email email (Responded r) = Some (email, "Unclear")).
Proof.
  intros Hnb. rewrite (check_email_body email r Hnb).
  repeat split.
  - intros H%contains_spec. rewrite H. reflexivity.
  - intros H1%contains_false H2. rewrite H1.
    assert (contains "is available" (text r)
            || contains "looks good" (text r) = true) as ->; [|reflexivity].
    rewrite orb_true_iff, !contains_spec. exact H2.
  - intros H1%contains_false H2%contains_false H3%contains_false.
    rewrite H1, H2, H3. reflexivity.
Qed.

Lemma check_email_classification_mapping_witness :
  ~ blocking_status 200
  /\ check_email "b@x.com" (Responded (Response 200 "Email looks good"))
     = Some ("b@x.com", "Not registered").
Proof.
  assert (Hnb : ~ blocking_status 200) by (unfold blocking_status; lia).
  split; [exact Hnb|].
  destruct (check_email_classification_mapping "b@x.com"
              (Response 200 "Email looks good") Hnb) as (_ & Hav & _).
  apply Hav.
  - apply contains_false. vm_compute. reflexivity.
  - right. exists "Email ", EmptyString. reflexivity.
Defined.

(** C4.  A response with status 429, 401, 403, 301 or 302 gives [None],
    whatever its body. *)
Theorem check_email_failure_statuses email r :
  blocking_status (status_code r) ->
  check_email email (Responded r) = None.
Proof. apply check_email_blocked. Qed.

Lemma check_email_failure_statuses_witness :
  blocking_status 429
  /\ check_email "a@x.com"
       (Responded (Response 429 "a@x.com is available")) = None.
Proof.
  assert (Hb : blocking_status 429) by (unfold blocking_status; lia).
  split; [exact Hb|].
  apply (check_email_failure_statuses "a@x.com"
           (Response 429 "a@x.com is available") Hb).
Defined.

(** C10.  Among the responses whose body is classified, one whose body
    contains both "already associated with an account" and an
    availability phrase is Registered; and whatever [check_email]
    returns, the first component of the pair is the e-mail passed in. *)
Theorem check_email_registered_first :
  (forall email r,
     ~ blocking_status (status_code r) ->
     occurs "already associated with an account" (text r) ->
     occurs "is available" (text r) \/ occurs "looks good" (text r) ->
     check_email email (Responded r) = Some (email, "Registered"))
  /\ (forall email post result,
        check_email email post = Some result -> result.1 = email).
Proof.
  split.
  - intros email r Hnb Hreg _.
    rewrite (check_email_body email r Hnb).
    apply contains_spec in Hreg. rewrite Hreg. reflexivity.
  - intros email [r|e] result.
    + destruct (blocking_status_dec (status_code r)) as [Hb|Hnb].
      * rewrite (check_email_blocked email r Hb). discriminate.
      * rewrite (check_email_body email r Hnb). intros [= <-]. reflexivity.
    + rewrite check_email_raised. discriminate.
Qed.

(** C3, as stated, fails: a 404 response is not 2xx, and [check_email]
    classifies its body all the same. *)
Lemma check_email_classifies_non_2xx :
  ~ (forall email r,
       ~ (200 <= status_code r < 300) ->
       check_email email (Responded r) = None).
Proof.
  intros H.
  specialize (H "a@x.com" (Response 404 "Not Found")).
  simpl in H. assert (~ 200 <= 404 < 300) as Hs by lia.
  specialize (H Hs). vm_compute in H. discriminate.
Qed.

(** C3, amended.  [check_email] returns [None] exactly for the statuses
    429, 401, 403, 301 and 302 and for every raised request; for every
    other status, 2xx or not, it returns the e-mail with one of the three
    classifications. *)
Theorem check_email_none_iff_blocking :
  (forall email r,
     check_email email (Responded r) = None <->
     blocking_status (status_code r))
  /\ (forall email r,
        ~ blocking_status (status_code r) ->
        exists status, classification status
                       /\ check_email email (Responded r) = Some (email, status))
  /\ (forall email e, check_email email (Raised e) = None).
Proof.
  split; [|split].
  - intros email r. split.
    + destruct (blocking_status_dec (status_code r)) as [Hb|Hnb]; [tauto|].
      rewrite (check_email_body email r Hnb). discriminate.
    + apply check_email_blocked.
  - intros email r Hnb. rewrite (check_email_body email r Hnb).
    unfold classification.
    destruct (contains "already associated with an account" (text r)); [eauto|].
    destruct (contains "is available" (text r) || contains "looks good" (text r));
      eauto 6.
  - apply check_email_raised.
Qed.

Lemma check_email_registered_first_witness :
  ~ blocking_status 200
  /\ check_email "taken@x.com"
       (Responded (Response 200
          "already associated with an account; no other name is available"))
     = Some ("taken@x.com", "Registered").
Proof.
  assert (Hnb : ~ blocking_status 200) by (unfold blocking_status; lia).
  split; [exact Hnb|].
  apply (proj1 check_email_registered_first "taken@x.com"
           (Response 200
              "already associated with an account; no other name is available")
           Hnb).
  - exists EmptyString, "; no other name is available". reflexivity.
  - left. exists "already associated with an account; no other name ", EmptyString.
    reflexivity.
Defined.

Lemma check_email_none_iff_blocking_witness :
  ~ blocking_status 404
  /\ exists status,
       classification status
       /\ check_email "a@x.com" (Responded (Response 404 "Not Found"))
          = Some ("a@x.com", status).
Proof.
  assert (Hnb : ~ blocking_status 404) by (unfold blocking_status; lia).
  split; [exact Hnb|].
  destruct check_email_none_iff_blocking as (_ & Hsome & _).
  exact (Hsome "a@x.com" (Response 404 "Not Found") Hnb).
Defined.

End CheckEmail.

(** ** [get_csrf_token] *)

Section GetCsrfToken.
Import GetCsrf.

Lemma request_page_blocked r :
  blocking_status (status_code r) ->
  request_page (Responded r) = inl (Return None).
Proof.
  intros Hb. rewrite blocking_status_eqb in Hb. unfold request_page.
  destruct (status_code r =? 429); [reflexivity|].
  destruct (status_code r =? 403); [reflexivity|].
  destruct (status_code r =? 401); [reflexivity|].
  destruct ((status_code r =? 301) || (status_code r =? 302));
    [reflexivity | discriminate].
Qed.

Lemma request_page_unblocked r :
  ~ blocking_status (status_code r) ->
  request_page (Responded r) =
    match raise_for_status r with
    | Some e => inl (except_clauses e)
    | None => inr r
    end.
Proof.
  intros Hnb. rewrite blocking_status_eqb in Hnb. unfold request_page.
  destruct (status_code r =? 429); [exfalso; apply Hnb; reflexivity|].
  destruct (status_code r =? 403); [exfalso; apply Hnb; reflexivity|].
  destruct (status_code r =? 401); [exfalso; apply Hnb; reflexivity|].
  destruct ((status_code r =? 301) || (status_code r =? 302));
    [exfalso; apply Hnb; reflexivity | reflexivity].
Qed.

Lemma except_clauses_none e : except_clauses e = Return None.
Proof. destruct e; reflexivity. Qed.

Lemma raise_for_status_spec {B} (r : response B) :
  (400 <= status_code r < 600 -> raise_for_status r = Some HTTPError)
  /\ (~ (400 <= status_code r < 600) -> raise_for_status r = None).
Proof.
  unfold raise_for_status.
  destruct (Z.leb_spec 400 (status_code r)), (Z.ltb_spec (status_code r) 600);
    simpl; split; intros; try reflexivity; lia.
Qed.

Lemma get_csrf_token_cases r :
  (blocking_status (status_code r) \/ 400 <= status_code r < 600 ->
   get_csrf_token (Responded r) = Return None)
  /\ (reaches_parsing (status_code r) ->
      get_csrf_token (Responded r) =
        match parse_token (text r) with
        | Some token => Return (Some token)
        | None => RuntimeError
        end).
Proof.
  unfold get_csrf_token, reaches_parsing.
  destruct (blocking_status_dec (status_code r)) as [Hb|Hnb].
  - rewrite (request_page_blocked r Hb). split; [reflexivity | tauto].
  - rewrite (request_page_unblocked r Hnb).
    destruct (raise_for_status_spec r) as [Hyes Hno]. split.
    + intros [Hb|Herr]; [tauto|]. rewrite (Hyes Herr). reflexivity.
    + intros [_ Hok]. rewrite (Hno Hok). reflexivity.
Qed.

(** C7, as stated, fails: a 304 page without the token field is not a
    2xx page, and [get_csrf_token] raises on it all the same. *)
Lemma get_csrf_token_raises_outside_2xx :
  ~ (forall get,
       get_csrf_token get = RuntimeError ->
       exists r, get = Responded r
                 /\ 200 <= status_code r < 300
                 /\ parse_token (text r) = None).
Proof.
  intros H.
  destruct (H (Responded (Response 304 Fixtures.empty_page)))
    as (r & Hr & Hstatus & _); [vm_compute; reflexivity|].
  injection Hr as <-. simpl in Hstatus. lia.
Qed.

(** C7, amended.  [get_csrf_token] returns [None] for every raised
    request and for every response with status 429, 401, 403, 301, 302 or
    any other 4xx or 5xx status; it raises its [RuntimeError] exactly when
    a response with any other status (every 2xx status is one) lacks a
    usable hidden token field; and in the worker that error ends the
    attempt it occurs in as a failed attempt, moving on to the next
    attempt or, after attempt [max_attempts], to the exhausted return,
    with the queue, the results and the session counters untouched. *)
Theorem get_csrf_token_failure_modes :
  (forall e, get_csrf_token (Raised e) = Return None)
  /\ (forall r,
        blocking_status (status_code r) \/ 400 <= status_code r < 600 ->
        get_csrf_token (Responded r) = Return None)
  /\ (forall get,
        get_csrf_token get = RuntimeError <->
        exists r, get = Responded r
                  /\ reaches_parsing (status_code r)
                  /\ parse_token (text r) = None)
  /\ (forall status, 200 <= status < 300 -> reaches_parsing status)
  /\ (forall emails_per_session l qu res i attempt sid,
        Worker.at_ l = Worker.Acquiring attempt ->
        Worker.generated i = Some sid ->
        get_csrf_token (Worker.page i) = RuntimeError ->
        exists l',
          Worker.worker_step emails_per_session l qu res i
          = Some (l', qu, res, Worker.AttemptFailed attempt)
          /\ Worker.at_ l'
             = (if attempt <? Worker.max_attempts
                then Worker.Acquiring (attempt + 1)
                else Worker.Exited_exhausted)
          /\ Worker.processed_in_session l' = Worker.processed_in_session l
          /\ Worker.processed_total l' = Worker.processed_total l
          /\ Worker.identity l' = Worker.identity l).
Proof.
  split; [|split; [|split; [|split]]].
  - intros e. unfold get_csrf_token. simpl. apply except_clauses_none.
  - intros r. apply (get_csrf_token_cases r).
  - intros [r|e]; split.
    + intros Hraise. exists r. split; [reflexivity|].
      destruct (blocking_status_dec (status_code r)) as [Hb|Hnb].
      { rewrite (proj1 (get_csrf_token_cases r)) in Hraise by tauto.
        discriminate. }
      destruct (Z.le_gt_cases 400 (status_code r)),
               (Z.le_gt_cases 600 (status_code r));
        try (rewrite (proj1 (get_csrf_token_cases r)) in Hraise by lia;
             discriminate);
        (assert (reaches_parsing (status_code r)) as Hrp
           by (split; [exact Hnb | lia]));
        (split; [exact Hrp|]);
        rewrite (proj2 (get_csrf_token_cases r) Hrp) in Hraise;
        destruct (parse_token (text r)); [discriminate | reflexivity
                                         | discriminate | reflexivity].
    + intros (r' & [= <-] & Hrp & Hnone).
      rewrite (proj2 (get_csrf_token_cases r) Hrp), Hnone. reflexivity.
    + unfold get_csrf_token. simpl. rewrite except_clauses_none. discriminate.
    + intros (r & Hr & _). discriminate.
  - intros status Hs. unfold reaches_parsing, blocking_status. lia.
  - intros eps l qu res i attempt sid Hat Hgen Hraise.
    unfold Worker.worker_step, Worker.attempt_session. rewrite Hat, Hgen, Hraise.
    eexists. split; [reflexivity|]. simpl. auto.
Qed.

Lemma get_csrf_token_failure_modes_witness :
  reaches_parsing 200
  /\ get_csrf_token (Responded (Response 200 Fixtures.empty_page))
     = RuntimeError.
Proof.
  destruct get_csrf_token_failure_modes as (_ & _ & Hraise & H2xx & _).
  assert (Hrp : reaches_parsing 200) by (apply H2xx; lia).
  split; [exact Hrp|].
  apply Hraise. exists (Response 200 Fixtures.empty_page).
  split; [reflexivity|]. split; [exact Hrp | vm_compute; reflexivity].
Defined.

End GetCsrfToken.

(** ** The retry policy *)

Section RetryFacts.
Import RetryPolicy.





End RetryFacts.

(** ** The engine: what holds along every interleaving *)

Section EngineInvariants.
Import Worker Engine Log.

Variable emails_per_session : Z.

Local Abbreviation step := (Worker.worker_step emails_per_session).
Local Abbreviation sys_step := (Engine.sys_step emails_per_session).
Local Abbreviation run := (Engine.run emails_per_session).

(** *** Counting successes *)

Lemma successes_nil k : successes k [] = 0.
Proof. reflexivity. Qed.

Lemma successes_snoc k h x :
  successes k (h ++ [x]) =
  successes k h
  + (if decide (under x = k /\ is_success (did x) = true) then 1 else 0).
Proof.
  unfold successes. rewrite filter_app, length_app, Nat2Z.inj_add.
  f_equal. rewrite filter_cons, filter_nil. case_decide; reflexivity.
Qed.

Lemma successes_snoc_other k h w j ev :
  is_success ev = false ->
  successes k (h ++ [{| by_worker := w; under := j; did := ev |}])
  = successes k h.
Proof.
  intros Hev. rewrite successes_snoc. simpl. rewrite Hev.
  case_decide as H; [destruct H; discriminate | lia].
Qed.

Lemma successes_nonneg k h : 0 <= successes k h.
Proof. unfold successes. lia. Qed.

(** *** The session budget, worker by worker *)
Local Abbreviation budget_inv := (Log.budget_inv emails_per_session).
Local Abbreviation worker_inv := (Log.worker_inv emails_per_session).
Local Abbreviation invariant := (Log.invariant emails_per_session).

Lemma budget_inv_start : budget_inv start [].
Proof.
  unfold Log.budget_inv. simpl. repeat split; intros; rewrite ?successes_nil; lia.
Qed.

Lemma budget_inv_step w l qu res i l' qu' res' ev h :
  budget_inv l h ->
  step l qu res i = Some (l', qu', res', ev) ->
  budget_inv l' (h ++ [{| by_worker := w; under := identity l'; did := ev |}]).
Proof.
  intros (Hall & Hnew & Hpc) Hstep. unfold Worker.worker_step in Hstep.
  destruct (at_ l) eqn:Hat.
  - (* Acquiring *)
    destruct (attempt_session l i) as [[sid tok]|[sid tok]];
      injection Hstep as <- <- <- <-; unfold Log.budget_inv; simpl.
    + repeat split.
      * intros j. rewrite successes_snoc_other by reflexivity. apply Hall.
      * intros j Hj. rewrite successes_snoc_other by reflexivity.
        apply Hnew. lia.
      * lia.
      * lia.
      * rewrite successes_snoc_other by reflexivity.
        rewrite Hnew by lia. lia.
    + repeat split.
      * intros j. rewrite successes_snoc_other by reflexivity. apply Hall.
      * intros j Hj. rewrite successes_snoc_other by reflexivity.
        apply Hnew. lia.
      * destruct (attempt <? max_attempts); exact I.
  - (* Loop *)
    destruct (Z.ltb_spec (processed_in_session l) emails_per_session).
    + destruct (Queue.get qu) as [[email qu1]|];
        injection Hstep as <- <- <- <-; unfold Log.budget_inv; simpl;
        (repeat split;
         [ intros j; rewrite successes_snoc_other by reflexivity; apply Hall
         | intros j Hj; rewrite successes_snoc_other by reflexivity;
           apply Hnew; lia
         | .. ]);
        rewrite ?successes_snoc_other by reflexivity; lia.
    + injection Hstep as <- <- <- <-; unfold Log.budget_inv; simpl.
      repeat split.
      * intros j; rewrite successes_snoc_other by reflexivity; apply Hall.
      * intros j Hj; rewrite successes_snoc_other by reflexivity;
          apply Hnew; lia.
  - (* Checking *)
    destruct (call_check_email email i) as [[[e1 status]|]|];
      injection Hstep as <- <- <- <-; unfold Log.budget_inv; simpl.
    + (* a success: one more under the current identity *)
      repeat split.
      * intros j. rewrite successes_snoc. simpl.
        case_decide as Hj; [|specialize (Hall j); lia].
        destruct Hj as [<- _]. lia.
      * intros j Hj. rewrite successes_snoc. simpl.
        case_decide as Hj'; [destruct Hj'; lia|].
        rewrite Hnew by lia. lia.
      * lia.
      * lia.
      * rewrite successes_snoc. simpl. case_decide; lia.
    + repeat split;
        [ intros j; rewrite successes_snoc_other by reflexivity; apply Hall
        | intros j Hj; rewrite successes_snoc_other by reflexivity;
          apply Hnew; lia
        | .. ];
        rewrite ?successes_snoc_other by reflexivity; lia.
    + repeat split;
        [ intros j; rewrite successes_snoc_other by reflexivity; apply Hall
        | intros j Hj; rewrite successes_snoc_other by reflexivity;
          apply Hnew; lia
        | .. ];
        rewrite ?successes_snoc_other by reflexivity; lia.
  - (* Requeue *)
    destruct (Queue.put email qu); [|discriminate].
    injection Hstep as <- <- <- <-; unfold Log.budget_inv; simpl.
    repeat split;
      [ intros j; rewrite successes_snoc_other by reflexivity; apply Hall
      | intros j Hj; rewrite successes_snoc_other by reflexivity;
        apply Hnew; lia
      | .. ];
      rewrite ?successes_snoc_other by reflexivity; lia.
  - (* Store *)
    injection Hstep as <- <- <- <-; unfold Log.budget_inv; simpl.
    repeat split;
      [ intros j; rewrite successes_snoc_other by reflexivity; apply Hall
      | intros j Hj; rewrite successes_snoc_other by reflexivity;
        apply Hnew; lia
      | .. ];
      rewrite ?successes_snoc_other by reflexivity; lia.
  - (* Finally *)
    destruct (Queue.task_done qu);
      injection Hstep as <- <- <- <-; unfold Log.budget_inv; simpl.
    + destruct leave; simpl;
        (repeat split;
         [ intros j; rewrite successes_snoc_other by reflexivity; apply Hall
         | intros j Hj; rewrite successes_snoc_other by reflexivity;
           apply Hnew; lia
         | .. ]);
        rewrite ?successes_snoc_other by reflexivity; lia.
    + repeat split.
      * intros j; rewrite successes_snoc_other by reflexivity; apply Hall.
      * intros j Hj; rewrite successes_snoc_other by reflexivity;
          apply Hnew; lia.
  - (* Rotate *)
    injection Hstep as <- <- <- <-; unfold Log.budget_inv; simpl.
    repeat split.
    + intros j; rewrite successes_snoc_other by reflexivity; apply Hall.
    + intros j Hj; rewrite successes_snoc_other by reflexivity;
        apply Hnew; lia.
  - discriminate.
  - discriminate.
  - discriminate.
Qed.

(** *** Attempts and exits *)

Lemma failed_attempts_0 : failed_attempts 0 = [].
Proof. reflexivity. Qed.

Lemma failed_attempts_snoc n :
  1 <= n -> failed_attempts n = failed_attempts (n - 1) ++ [AttemptFailed n].
Proof.
  intros Hn. unfold failed_attempts.
  replace n with ((n - 1) + 1) at 1 by lia.
  rewrite seqZ_app by lia. rewrite fmap_app. f_equal.
  replace (1 + (n - 1)) with n by lia.
  rewrite seqZ_cons by lia. rewrite seqZ_nil by lia. reflexivity.
Qed.

Lemma exit_inv_start : exit_inv start [].
Proof.
  unfold exit_inv, max_attempts. simpl. split; [lia|]. exists []. reflexivity.
Qed.

Lemma exit_inv_step l qu res i l' qu' res' ev evs :
  exit_inv l evs ->
  step l qu res i = Some (l', qu', res', ev) ->
  at_ l' <> Crashed ->
  exit_inv l' (evs ++ [ev]).
Proof.
  intros Hinv Hstep Hnc. unfold Worker.worker_step in Hstep. unfold exit_inv in *.
  destruct (at_ l) eqn:Hat.
  - destruct Hinv as (Hrange & h0 & ->).
    destruct (attempt_session l i) as [[sid tok]|[sid tok]];
      injection Hstep as <- <- <- <-; simpl; [exact I|].
    destruct (Z.ltb_spec attempt max_attempts).
    + split; [lia|]. exists h0. rewrite <- app_assoc. f_equal.
      replace (attempt + 1 - 1) with attempt by lia.
      apply eq_sym, failed_attempts_snoc. lia.
    + exists h0. rewrite <- app_assoc. f_equal.
      replace max_attempts with attempt by lia.
      apply eq_sym, failed_attempts_snoc. lia.
  - destruct (processed_in_session l <? emails_per_session).
    + destruct (Queue.get qu) as [[email qu1]|];
        injection Hstep as <- <- <- <-; simpl; [exact I|].
      exists evs. reflexivity.
    + injection Hstep as <- <- <- <-. exact I.
  - destruct (call_check_email email i) as [[[e1 status]|]|];
      injection Hstep as <- <- <- <-; exact I.
  - destruct (Queue.put email qu); [|discriminate].
    injection Hstep as <- <- <- <-. exact I.
  - injection Hstep as <- <- <- <-. exact I.
  - destruct (Queue.task_done qu); injection Hstep as <- <- <- <-; simpl.
    + destruct leave; exact I.
    + apply Hnc. reflexivity.
  - injection Hstep as <- <- <- <-. simpl. unfold max_attempts.
    split; [lia|]. exists (evs ++ [Rotating]).
    change (1 - 1) with 0. rewrite failed_attempts_0, app_nil_r. reflexivity.
  - discriminate.
  - discriminate.
  - discriminate.
Qed.

(** *** Handlings *)

Lemma shape_inv_start : shape_inv start [].
Proof. exists [], []. repeat split. constructor. Qed.

Lemma shape_between h0 ev evs p :
  settled h0 -> evs = h0 ++ [] -> between ev -> in_progress p [] ->
  exists h1 b, evs ++ [ev] = h1 ++ b /\ settled h1 /\ in_progress p b.
Proof.
  intros Hs -> Hb Hp. exists (h0 ++ [ev]), [].
  rewrite !app_nil_r. auto using settled_between.
Qed.

Lemma shape_extend h0 b ev evs p :
  settled h0 -> evs = h0 ++ b -> in_progress p (b ++ [ev]) ->
  exists h1 b1, evs ++ [ev] = h1 ++ b1 /\ settled h1 /\ in_progress p b1.
Proof.
  intros Hs -> Hp. exists h0, (b ++ [ev]). rewrite app_assoc. auto.
Qed.

Lemma shape_close h0 b ev evs p :
  settled h0 -> evs = h0 ++ b -> handling (b ++ [ev]) -> in_progress p [] ->
  exists h1 b1, evs ++ [ev] = h1 ++ b1 /\ settled h1 /\ in_progress p b1.
Proof.
  intros Hs -> Hh Hp. exists (h0 ++ (b ++ [ev])), [].
  rewrite app_nil_r, <- app_assoc. auto using settled_handling.
Qed.

Local Ltac shape_side :=
  solve [ exact I | reflexivity | constructor | simpl; eauto
        | match goal with |- context [?a <? ?b] => destruct (a <? b) end;
          reflexivity ].

Lemma shape_inv_step l qu res i l' qu' res' ev evs :
  shape_inv l evs ->
  step l qu res i = Some (l', qu', res', ev) ->
  at_ l' <> Crashed ->
  shape_inv l' (evs ++ [ev]).
Proof.
  intros (h0 & b & Hevs & Hs & Hb) Hstep Hnc.
  unfold Worker.worker_step in Hstep. unfold shape_inv.
  destruct (at_ l) eqn:Hat; simpl in Hb.
  - subst b.
    destruct (attempt_session l i) as [[sid tok]|[sid tok]];
      injection Hstep as <- <- <- <-; cbn [at_ goto];
      eapply shape_between; eauto; shape_side.
  - subst b. destruct (processed_in_session l <? emails_per_session).
    + destruct (Queue.get qu) as [[email qu1]|];
        injection Hstep as <- <- <- <-; cbn [at_ goto].
      * eapply shape_extend; eauto; shape_side.
      * eapply shape_between; eauto; shape_side.
    + injection Hstep as <- <- <- <-; cbn [at_ goto].
      eapply shape_between; eauto; shape_side.
  - subst b.
    destruct (call_check_email email i) as [[[e1 status]|]|];
      injection Hstep as <- <- <- <-; cbn [at_ goto];
      eapply shape_extend; eauto; shape_side.
  - destruct (Queue.put email qu); [|discriminate].
    injection Hstep as <- <- <- <-; cbn [at_ goto].
    eapply shape_extend; eauto. destruct Hb as [->| ->]; shape_side.
  - subst b. injection Hstep as <- <- <- <-; cbn [at_ goto].
    eapply shape_extend; eauto; shape_side.
  - destruct (Queue.task_done qu); injection Hstep as <- <- <- <-;
      cbn [at_ goto].
    + destruct leave; cbn [at_ goto].
      * eapply shape_extend; eauto. right. exists email.
        destruct Hb as [->| ->]; shape_side.
      * destruct Hb as [status ->].
        eapply shape_close; eauto; shape_side.
    + exfalso. apply Hnc. reflexivity.
  - injection Hstep as <- <- <- <-; cbn [at_ goto].
    destruct Hb as [->|[email [->| ->]]].
    + eapply shape_between; eauto; shape_side.
    + eapply shape_close; eauto; shape_side.
    + eapply shape_close; eauto; shape_side.
  - discriminate.
  - discriminate.
  - discriminate.
Qed.

(** *** Identities are numbered by acquisitions *)

Lemma count_snoc kind h ev :
  count kind (h ++ [ev]) = count kind h + (if kind ev then 1 else 0).
Proof.
  unfold count. rewrite List.filter_app, length_app, Nat2Z.inj_add. f_equal.
  simpl. destruct (kind ev); reflexivity.
Qed.

Lemma numbered_inv_step l qu res i l' qu' res' ev evs :
  numbered_inv l evs ->
  step l qu res i = Some (l', qu', res', ev) ->
  numbered_inv l' (evs ++ [ev]).
Proof.
  unfold numbered_inv. intros Hinv Hstep. rewrite count_snoc.
  unfold Worker.worker_step in Hstep.
  destruct (at_ l);
    repeat match type of Hstep with
           | context [match ?x with _ => _ end] => destruct x
           | context [if ?x then _ else _] => destruct x
           end;
    try discriminate; injection Hstep as <- <- <- <-; simpl; lia.
Qed.

(** *** The queue's count of unfinished tasks *)

Lemma in_flight_range p : 0 <= in_flight p <= 1.
Proof. destruct p; simpl; lia. Qed.

Lemma in_flight_total_nonneg ws : 0 <= in_flight_total ws.
Proof.
  induction ws as [|l ws IH]; simpl; [lia|].
  pose proof (in_flight_range (at_ l)). lia.
Qed.

Lemma in_flight_total_insert ws w l l' :
  ws !! w = Some l ->
  in_flight_total (<[w := l']> ws)
  = in_flight_total ws - in_flight (at_ l) + in_flight (at_ l').
Proof.
  revert w. induction ws as [|l0 ws IH]; intros [|w] Hw; try discriminate.
  - injection Hw as ->. simpl. lia.
  - simpl in *. rewrite (IH w Hw). lia.
Qed.

Lemma in_flight_total_ge ws w l :
  ws !! w = Some l -> in_flight (at_ l) <= in_flight_total ws.
Proof.
  revert w. induction ws as [|l0 ws IH]; intros [|w] Hw; try discriminate.
  - injection Hw as ->. simpl. pose proof (in_flight_total_nonneg ws). lia.
  - simpl in *. specialize (IH w Hw). pose proof (in_flight_range (at_ l0)). lia.
Qed.

Lemma in_flight_total_start n : in_flight_total (replicate n start) = 0.
Proof. induction n as [|n IH]; simpl; [reflexivity | rewrite IH; reflexivity]. Qed.

(** How one step of a worker moves the two sides of [accounted], and
    that [task_done] cannot fail while they agree. *)
Lemma step_accounted l qu res i l' qu' res' ev rest :
  Queue.unfinished_tasks qu = Queue.qsize qu + rest ->
  in_flight (at_ l) <= rest ->
  step l qu res i = Some (l', qu', res', ev) ->
  at_ l' <> Crashed
  /\ Queue.unfinished_tasks qu'
     = Queue.qsize qu' + (rest - in_flight (at_ l) + in_flight (at_ l')).
Proof.
  intros Hacc Hge Hstep. unfold Worker.worker_step in Hstep.
  destruct (at_ l) eqn:Hat; simpl in Hge.
  - destruct (attempt_session l i) as [[sid tok]|[sid tok]];
      injection Hstep as <- <- <- <-; cbn [at_].
    + split; [discriminate | simpl; lia].
    + destruct (attempt <? max_attempts); split; try discriminate; simpl; lia.
  - destruct (processed_in_session l <? emails_per_session).
    + unfold Queue.get in Hstep. unfold Queue.qsize in *.
      destruct (Queue.items qu) as [|item items] eqn:Hitems;
        injection Hstep as <- <- <- <-; cbn [at_ goto];
        (split; [discriminate|]); simpl in *; rewrite ?Hitems in *; simpl; lia.
    + injection Hstep as <- <- <- <-; cbn [at_ goto].
      split; [discriminate | simpl; lia].
  - destruct (call_check_email email i) as [[[e1 status]|]|];
      injection Hstep as <- <- <- <-; cbn [at_ goto];
      (split; [discriminate | simpl; lia]).
  - unfold Queue.put in Hstep. destruct (Queue.full qu); [discriminate|].
    injection Hstep as <- <- <- <-; cbn [at_ goto].
    split; [discriminate|]. unfold Queue.qsize in *. simpl.
    rewrite length_app. simpl. lia.
  - injection Hstep as <- <- <- <-; cbn [at_ goto].
    split; [discriminate | simpl; lia].
  - unfold Queue.task_done in Hstep.
    assert (0 <= Queue.qsize qu) by (unfold Queue.qsize; lia).
    destruct (Z.ltb_spec (Queue.unfinished_tasks qu - 1) 0); [lia|].
    injection Hstep as <- <- <- <-; cbn [at_].
    split; [destruct leave; discriminate|].
    unfold Queue.qsize in *. destruct leave; simpl; lia.
  - injection Hstep as <- <- <- <-; cbn [at_ goto].
    split; [discriminate | simpl; lia].
  - discriminate.
  - discriminate.
  - discriminate.
Qed.

(** *** The invariant along every schedule *)

Lemma history_snoc_same w tr k ev :
  history w (tr ++ [{| by_worker := w; under := k; did := ev |}])
  = history w tr ++ [{| by_worker := w; under := k; did := ev |}].
Proof.
  unfold history. rewrite filter_app. f_equal.
  rewrite filter_cons_True by reflexivity. reflexivity.
Qed.

Lemma history_snoc_other w w' tr k ev :
  w' <> w ->
  history w' (tr ++ [{| by_worker := w; under := k; did := ev |}])
  = history w' tr.
Proof.
  intros Hne. unfold history. rewrite filter_app.
  rewrite filter_cons_False by (simpl; congruence).
  rewrite filter_nil, app_nil_r. reflexivity.
Qed.

Lemma events_snoc h x : events (h ++ [x]) = events h ++ [did x].
Proof. unfold events. rewrite fmap_app. reflexivity. Qed.

Lemma worker_inv_start : worker_inv start [].
Proof.
  split; [apply budget_inv_start|].
  split; [apply exit_inv_start|].
  split; [apply shape_inv_start | reflexivity].
Qed.

Lemma invariant_init n emails : invariant (init n emails).
Proof.
  split; [|split].
  - unfold accounted. simpl. rewrite in_flight_total_start. reflexivity.
  - intros w l Hl. simpl in Hl.
    apply lookup_replicate in Hl as [-> _]. apply worker_inv_start.
  - reflexivity.
Qed.

Lemma invariant_step s who i s' :
  invariant s -> sys_step s who i = Some s' -> invariant s'.
Proof.
  intros (Hacc & Hws & Hno) Hstep. destruct who as [|w]; simpl in Hstep.
  - (* the producer puts one e-mail *)
    destruct (pending s) as [|email rest]; [discriminate|].
    unfold Queue.put in Hstep. destruct (Queue.full (q s)); [discriminate|].
    injection Hstep as <-. split; [|split; [exact Hws | exact Hno]].
    unfold accounted, Queue.qsize in *. simpl. rewrite length_app. simpl. lia.
  - destruct (workers s !! w) as [l|] eqn:Hl; [|discriminate].
    destruct (step l (q s) (results s) i) as [[[[l' qu'] res'] ev]|] eqn:Hst;
      [|discriminate].
    injection Hstep as <-.
    destruct (step_accounted _ _ _ _ _ _ _ _ _ Hacc
                (in_flight_total_ge _ _ _ Hl) Hst) as [Hnc Hacc'].
    split; [|split].
    + unfold accounted. simpl.
      rewrite (in_flight_total_insert _ _ _ l' Hl). exact Hacc'.
    + intros w' l0 Hl0. simpl in Hl0. simpl.
      destruct (decide (w' = w)) as [->|Hne].
      * rewrite list_lookup_insert_eq in Hl0
          by (apply lookup_lt_is_Some; eauto).
        injection Hl0 as <-. rewrite history_snoc_same.
        destruct (Hws w l Hl) as (Hb & He & Hsh & Hnum).
        split; [eapply budget_inv_step; eauto|].
        rewrite events_snoc. simpl.
        split; [eapply exit_inv_step; eauto|].
        split; [eapply shape_inv_step; eauto | eapply numbered_inv_step; eauto].
      * rewrite list_lookup_insert_ne in Hl0 by congruence.
        rewrite history_snoc_other by exact Hne. apply Hws, Hl0.
    + intros w' Hnone. simpl in *.
      assert (w' <> w) as Hne.
      { intros ->. rewrite list_lookup_insert_eq in Hnone
          by (apply lookup_lt_is_Some; eauto). discriminate. }
      rewrite list_lookup_insert_ne in Hnone by congruence.
      rewrite history_snoc_other by exact Hne. apply Hno, Hnone.
Qed.

Lemma invariant_run sched s : invariant s -> invariant (run sched s).
Proof.
  revert s. induction sched as [|[who i] sched IH]; intros s Hs; [exact Hs|].
  simpl. apply IH.
  destruct (sys_step s who i) as [s'|] eqn:Hstep; simpl; [|exact Hs].
  eapply invariant_step; eauto.
Qed.

Lemma invariant_reachable n emails sched :
  invariant (run sched (init n emails)).
Proof. apply invariant_run, invariant_init. Qed.

End EngineInvariants.


(** ** Reading handlings off a history *)

Section Handlings.
Import Worker Engine Log.











End Handlings.

(** ** What the engine guarantees *)

Section Guarantees.
Import Worker Engine Log.






Lemma run_app emails_per_session sched1 sched2 s :
  run emails_per_session (sched1 ++ sched2) s
  = run emails_per_session sched2 (run emails_per_session sched1 s).
Proof.
  revert s. induction sched1 as [|[who i] sched1 IH]; intros s; simpl;
    [reflexivity | apply IH].
Qed.

Lemma scheduled_snoc w sched who i :
  scheduled w (sched ++ [(who, i)])
  = scheduled w sched + (if decide (who = WorkerThread w) then 1 else 0).
Proof.
  unfold scheduled. rewrite filter_app, length_app, Nat2Z.inj_add. f_equal.
  rewrite filter_cons, filter_nil. simpl. case_decide; reflexivity.
Qed.

Lemma scheduled_nonneg w sched : 0 <= scheduled w sched.
Proof. unfold scheduled. lia. Qed.

Lemma attempt_session_fails l i :
  acquisition_fails i -> exists vars, attempt_session l i = inr vars.
Proof.
  unfold attempt_session. intros [Hg|[Hp|Hp]].
  - rewrite Hg. eauto.
  - destruct (generated i); rewrite ?Hp; eauto.
  - destruct (generated i); rewrite ?Hp; eauto.
Qed.

Lemma all_attempts_fail_run emails_per_session n emails sched :
  (forall w i, (WorkerThread w, i) ∈ sched -> acquisition_fails i) ->
  let s := run emails_per_session sched (init n emails) in
  results s = ∅
  /\ forall w l,
       workers s !! w = Some l ->
       let c := scheduled w sched in
       events (history w (trace s)) = failed_attempts (Z.min c max_attempts)
       /\ at_ l = (if c <? max_attempts then Acquiring (c + 1)
                  else Exited_exhausted).
Proof.
  induction sched as [|[who i] sched IH] using rev_ind; intros Hfail.
  - simpl. split; [reflexivity|]. intros w l Hl.
    apply lookup_replicate in Hl as [-> _]. split; reflexivity.
  - rewrite run_app. simpl.
    destruct IH as [Hres Hws].
    { intros w0 i0 Hin. apply (Hfail w0 i0), elem_of_app. left. exact Hin. }
    set (s1 := run emails_per_session sched (init n emails)) in *.
    destruct who as [|w0]; simpl.
    + (* the producer moves *)
      assert (Hsame : forall w, scheduled w (sched ++ [(Producer, i)])
                                = scheduled w sched).
      { intros w. rewrite scheduled_snoc.
        case_decide; [discriminate | lia]. }
      destruct (pending s1) as [|email rest]; simpl;
        [|destruct (Queue.put email (q s1)); simpl];
        (split; [exact Hres|]); intros w l Hl; rewrite Hsame;
        apply (Hws w l Hl).
    + destruct (workers s1 !! w0) as [l0|] eqn:Hl0; simpl.
      * destruct (Hws w0 l0 Hl0) as [Hev0 Hat0].
        pose proof (scheduled_nonneg w0 sched) as Hc0.
        destruct (attempt_session_fails l0 i) as [[sid tok] Hatt].
        { apply (Hfail w0 i), elem_of_app. right. apply list_elem_of_singleton.
          reflexivity. }
        unfold worker_step. rewrite Hat0.
        destruct (Z.ltb_spec (scheduled w0 sched) max_attempts) as [Hlt|Hge].
        -- rewrite Hatt. simpl. split; [exact Hres|]. intros w l Hl.
           rewrite scheduled_snoc.
           destruct (decide (w = w0)) as [->|Hne].
           ++ rewrite list_lookup_insert_eq in Hl
                by (apply lookup_lt_is_Some; eauto).
              injection Hl as <-. simpl.
              rewrite history_snoc_same, events_snoc, Hev0. simpl.
              rewrite decide_True by reflexivity.
              rewrite !Z.min_l by lia. split.
              ** apply eq_sym. rewrite failed_attempts_snoc by lia.
                 f_equal. f_equal. lia.
              ** destruct (Z.ltb_spec (scheduled w0 sched + 1) max_attempts);
                   reflexivity.
           ++ rewrite list_lookup_insert_ne in Hl by congruence.
              rewrite history_snoc_other by exact Hne.
              rewrite decide_False by congruence. rewrite Z.add_0_r.
              apply (Hws w l Hl).
        -- simpl. split; [exact Hres|]. intros w l Hl.
           rewrite scheduled_snoc.
           destruct (decide (w = w0)) as [->|Hne].
           ++ rewrite decide_True by reflexivity.
              rewrite Hl0 in Hl. injection Hl as <-.
              rewrite Z.min_r by lia. rewrite Z.min_r in Hev0 by lia.
              split; [exact Hev0|].
              destruct (Z.ltb_spec (scheduled w0 sched + 1) max_attempts);
                [lia|]. rewrite Hat0.
              destruct (Z.ltb_spec (scheduled w0 sched) max_attempts);
                [lia|reflexivity].
           ++ rewrite decide_False by congruence. rewrite Z.add_0_r.
              apply (Hws w l Hl).
      * split; [exact Hres|]. intros w l Hl. rewrite scheduled_snoc.
        destruct (decide (w = w0)) as [->|Hne]; [congruence|].
        rewrite decide_False by congruence. rewrite Z.add_0_r.
        apply (Hws w l Hl).
Qed.

Lemma run_workers_length emails_per_session sched s :
  length (workers (run emails_per_session sched s)) = length (workers s).
Proof.
  revert s. induction sched as [|[who i] sched IH]; intros s; [reflexivity|].
  simpl. rewrite IH.
  destruct who as [|w]; simpl.
  - destruct (pending s) as [|email rest]; [reflexivity|].
    destruct (Queue.put email (q s)); reflexivity.
  - destruct (workers s !! w) as [l|]; [|reflexivity].
    destruct (worker_step emails_per_session l (q s) (results s) i)
      as [[[[l' qu'] res'] ev]|]; [|reflexivity].
    simpl. apply length_insert.
Qed.

(** C8.  If every attempt at an identity fails (the session cannot be
    made, or [get_csrf_token] gives no token), then along every
    interleaving a worker that has been let move [c] times has made
    exactly the failed attempts 1 to [min c max_attempts] and nothing
    else; it stands at attempt [c + 1] while [c < max_attempts] and has
    returned exhausted from the [max_attempts]-th move on; and the result
    dict is still empty. *)
Theorem exhaustion_after_max_attempts emails_per_session n emails sched :
  (forall w i, (WorkerThread w, i) ∈ sched -> acquisition_fails i) ->
  let s := run emails_per_session sched (init n emails) in
  results s = ∅
  /\ forall w,
       (w < n)%nat ->
       exists l,
         workers s !! w = Some l
         /\ let c := scheduled w sched in
            events (history w (trace s))
            = failed_attempts (Z.min c max_attempts)
            /\ at_ l = (if c <? max_attempts then Acquiring (c + 1)
                       else Exited_exhausted).
Proof.
  intros Hfail s.
  destruct (all_attempts_fail_run emails_per_session n emails sched Hfail)
    as [Hres Hws]. fold s in Hres, Hws.
  split; [exact Hres|]. intros w Hw.
  destruct (lookup_lt_is_Some_2 (workers s) w) as [l Hl].
  { unfold s. rewrite run_workers_length. simpl.
    rewrite length_replicate. exact Hw. }
  exists l. split; [exact Hl | apply (Hws w l Hl)].
Qed.

(** *** The guarantees on the fixtures *)

Import Fixtures.




Lemma exhaustion_after_max_attempts_witness :
  (forall w i, (WorkerThread w, i) ∈ never_a_session -> acquisition_fails i)
  /\ results (run 1 never_a_session (init 1 two_emails)) = ∅
  /\ exists l,
       workers (run 1 never_a_session (init 1 two_emails)) !! 0%nat = Some l
       /\ at_ l = Exited_exhausted.
Proof.
  assert (Hfail : forall w i,
             (WorkerThread w, i) ∈ never_a_session -> acquisition_fails i).
  { intros w i Hin. apply elem_of_replicate in Hin as [[= _ ->] _].
    left. reflexivity. }
  split; [exact Hfail|].
  pose proof (exhaustion_after_max_attempts 1 1 two_emails never_a_session
                Hfail) as H.
  cbv zeta in H. destruct H as [Hres Hws]. split; [exact Hres|].
  destruct (Hws 0%nat ltac:(lia)) as (l & Hl & _ & Hat).
  exists l. split; [exact Hl|]. rewrite Hat. vm_compute. reflexivity.
Defined.

End Guarantees.

(** * More of the engine *)

(** ** Tools: the branches of a step, and induction along a schedule *)

Section MoreTools.
Import Worker Engine Log Ledger.

Lemma sys_step_cases emails_per_session s who i s' :
  sys_step emails_per_session s who i = Some s' ->
  (exists email rest q',
      who = Producer /\ pending s = email :: rest
      /\ Queue.put email (q s) = Some q'
      /\ s' = {| q := q'; results := results s; workers := workers s;
                 pending := rest; trace := trace s |})
  \/ (exists w l l' q' results' ev,
         who = WorkerThread w /\ workers s !! w = Some l
         /\ worker_step emails_per_session l (q s) (results s) i
            = Some (l', q', results', ev)
         /\ s' = {| q := q'; results := results';
                    workers := <[w := l']> (workers s);
                    pending := pending s;
                    trace := trace s ++ [{| by_worker := w;
                                            under := identity l';
                                            did := ev |}] |}).
Proof.
  destruct who as [|w]; simpl.
  - destruct (pending s) as [|email rest]; [discriminate|].
    destruct (Queue.put email (q s)) as [q'|] eqn:Hput; [|discriminate].
    intros [= <-]. left. eauto 10.
  - destruct (workers s !! w) as [l|] eqn:Hl; [|discriminate].
    destruct (worker_step emails_per_session l (q s) (results s) i)
      as [[[[l' q'] res'] ev]|] eqn:Hst; [|discriminate].
    intros [= <-]. right. eauto 12.
Qed.

(** What holds at the start and is kept by every step from a state in
    which the engine invariant holds, holds along every schedule. *)
Lemma run_induction emails_per_session n emails (P : system -> Prop) :
  P (init n emails) ->
  (forall s who i s',
      P s -> invariant emails_per_session s ->
      sys_step emails_per_session s who i = Some s' -> P s') ->
  forall sched, P (run emails_per_session sched (init n emails)).
Proof.
  intros Hinit Hstep sched.
  assert (Hgen : forall sched s,
             P s /\ invariant emails_per_session s ->
             P (run emails_per_session sched s)
             /\ invariant emails_per_session (run emails_per_session sched s)).
  { clear sched. induction sched as [|[who i] sched IH]; intros s Hs; [exact Hs|].
    simpl. apply IH.
    destruct (sys_step emails_per_session s who i) as [s'|] eqn:E; simpl;
      [|exact Hs].
    destruct Hs as [HP Hinv]. split; [eapply Hstep; eauto|].
    eapply invariant_step; eauto. }
  apply (Hgen sched (init n emails)).
  split; [exact Hinit | apply invariant_init].
Qed.

End MoreTools.

(** The branches of [worker_step] that give a step, one goal each. *)
Ltac step_cases Hstep :=
  unfold Worker.worker_step in Hstep;
  repeat match type of Hstep with
         | context [match ?x with _ => _ end] =>
             let E := fresh "E" in destruct x eqn:E
         | context [if ?x then _ else _] =>
             let E := fresh "E" in destruct x eqn:E
         end;
  try discriminate Hstep;
  injection Hstep as <- <- <- <-.

(** What the three queue calls did, read off their results. *)
Ltac queue_cases :=
  repeat match goal with
         | E : Queue.get ?qu = Some _ |- _ =>
             unfold Queue.get in E;
             let Hitems := fresh "Hitems" in
             destruct (Queue.items qu) eqn:Hitems; [discriminate E|];
             injection E as <- <-
         | E : Queue.get ?qu = None |- _ =>
             unfold Queue.get in E;
             let Hitems := fresh "Hitems" in
             destruct (Queue.items qu) eqn:Hitems; [clear E|discriminate E]
         | E : Queue.put _ ?qu = Some _ |- _ =>
             unfold Queue.put in E;
             let Hfull := fresh "Hfull" in
             destruct (Queue.full qu) eqn:Hfull; [discriminate E|];
             injection E as <-
         | E : Queue.task_done ?qu = Some _ |- _ =>
             unfold Queue.task_done in E;
             let Hdone := fresh "Hdone" in
             destruct (Queue.unfinished_tasks qu - 1 <? 0) eqn:Hdone;
             [discriminate E|]; injection E as <-
         end.

(** ** No candidate is lost or doubled *)

Section Conservation.
Import Worker Engine Log Ledger.

Lemma occurrences_app email l1 l2 :
  occurrences email (l1 ++ l2)
  = (occurrences email l1 + occurrences email l2)%nat.
Proof. apply count_occ_app. Qed.

Lemma held_total_insert email ws w l l' :
  ws !! w = Some l ->
  (occurrences email (held_total (<[w := l']> ws))
   + occurrences email (held (at_ l))
   = occurrences email (held_total ws)
     + occurrences email (held (at_ l')))%nat.
Proof.
  revert w. induction ws as [|l0 ws IH]; intros [|w] Hw; try discriminate.
  - injection Hw as ->. simpl. rewrite !occurrences_app. lia.
  - simpl in *. rewrite !occurrences_app. specialize (IH w Hw). lia.
Qed.

Lemma resolved_snoc tr x :
  resolved (tr ++ [x])
  = resolved tr ++ match recorded (did x) with
                   | Some (email, _) => [email]
                   | None => []
                   end.
Proof.
  unfold resolved. rewrite omap_app. f_equal. simpl.
  destruct (recorded (did x)) as [[email status]|]; reflexivity.
Qed.

Lemma whereabouts_counted emails_per_session n emails sched email :
  occurrences email
    (whereabouts (run emails_per_session sched (init n emails)))
  = occurrences email emails.
Proof.
  apply (run_induction emails_per_session n emails
           (fun s => occurrences email (whereabouts s)
                     = occurrences email emails)).
  - unfold whereabouts. simpl.
    assert (held_total (replicate n start) = []) as ->.
    { induction n as [|k IH]; simpl; [reflexivity | exact IH]. }
    rewrite app_nil_r. reflexivity.
  - intros s who i s' HP _ Hstep. rewrite <- HP. clear HP.
    apply sys_step_cases in Hstep
      as [(e & rest & q' & -> & Hp & Hput & ->)
         |(w & l & l' & q' & r' & ev & -> & Hl & Hst & ->)];
      unfold whereabouts; simpl.
    + queue_cases. rewrite Hp. simpl.
      rewrite !occurrences_app. simpl. unfold occurrences. simpl.
      destruct (string_dec e email); lia.
    + pose proof (held_total_insert email _ _ _ l' Hl) as Hheld.
      rewrite resolved_snoc. simpl.
      step_cases Hst; queue_cases; simpl in *;
        rewrite ?E in Hheld; simpl in Hheld;
        unfold occurrences in *; rewrite ?Hitems; simpl in *;
        rewrite ?count_occ_app; simpl;
        repeat match goal with
               | |- context [string_dec ?a ?b] => destruct (string_dec a b)
               | H : context [string_dec ?a ?b] |- _ =>
                   destruct (string_dec a b)
               end; try congruence; rewrite ?count_occ_app; lia.
Qed.

End Conservation.

(** ** Induction along a schedule, worker by worker *)

Section PerWorker.
Import Worker Engine Log Ledger.

(** What holds of a fresh worker and is kept by each of its steps that
    does not crash, holds of every worker and its history along every
    schedule. *)
Lemma per_worker_induction emails_per_session n emails
    (P : local -> list entry -> Prop) :
  P start [] ->
  (forall w l qu res i l' qu' res' ev h,
      P l h ->
      worker_step emails_per_session l qu res i = Some (l', qu', res', ev) ->
      at_ l' <> Crashed ->
      P l' (h ++ [{| by_worker := w; under := identity l'; did := ev |}])) ->
  forall sched w l,
    workers (run emails_per_session sched (init n emails)) !! w = Some l ->
    P l (history w (trace (run emails_per_session sched (init n emails)))).
Proof.
  intros Hstart Hkeep sched.
  apply (run_induction emails_per_session n emails
           (fun s => forall w l, workers s !! w = Some l ->
                                 P l (history w (trace s)))).
  - intros w l Hl. simpl in Hl.
    apply lookup_replicate in Hl as [-> _]. exact Hstart.
  - intros s who i s' HP Hinv Hstep.
    pose proof (invariant_step _ _ _ _ _ Hinv Hstep) as (_ & Hws' & _).
    apply sys_step_cases in Hstep
      as [(e & rest & q' & -> & Hp & Hput & ->)
         |(w & l & l' & q' & r' & ev & -> & Hl & Hst & ->)];
      simpl in *; [exact HP|].
    intros w' l0 Hl0. destruct (decide (w' = w)) as [->|Hne].
    + rewrite list_lookup_insert_eq in Hl0
        by (apply lookup_lt_is_Some; eauto).
      injection Hl0 as <-. rewrite history_snoc_same.
      eapply Hkeep; eauto.
      assert (Hl' : <[w := l']> (workers s) !! w = Some l')
        by (apply list_lookup_insert_eq, lookup_lt_is_Some; eauto).
      destruct (Hws' w l' Hl') as (_ & Hexit & _).
      intros Hc. unfold exit_inv in Hexit. rewrite Hc in Hexit. exact Hexit.
    + rewrite list_lookup_insert_ne in Hl0 by congruence.
      rewrite history_snoc_other by exact Hne. apply HP, Hl0.
Qed.

End PerWorker.

(** ** The result dict *)

Section Results.
Import Worker Engine Log Ledger.

Lemma check_email_Some email post e status :
  EmailChecker.check_email email post = Some (e, status) ->
  e = email /\ EmailChecker.classification status.
Proof.
  destruct post as [r|x]; [|rewrite check_email_raised; discriminate].
  destruct (blocking_status_dec (status_code r)) as [Hb|Hnb].
  - rewrite (check_email_blocked email r Hb). discriminate.
  - rewrite (check_email_body email r Hnb). intros [= <- <-].
    split; [reflexivity|]. unfold EmailChecker.classification.
    destruct (Str.contains _ _); [auto|].
    destruct (_ || _); auto.
Qed.

Lemma replay_snoc tr x :
  replay (tr ++ [x])
  = match recorded (did x) with
    | Some (email, status) => <[email := status]> (replay tr)
    | None => replay tr
    end.
Proof. unfold replay. rewrite foldl_app. reflexivity. Qed.

Lemma replay_lookup_Some tr email status :
  replay tr !! email = Some status ->
  exists x, x ∈ tr /\ did x = Recorded email status.
Proof.
  induction tr as [|x tr IH] using rev_ind.
  - unfold replay. simpl. rewrite lookup_empty. discriminate.
  - rewrite replay_snoc.
    destruct (recorded (did x)) as [[e st]|] eqn:Hx.
    + destruct (decide (e = email)) as [->|Hne].
      * rewrite lookup_insert_eq. intros [= ->]. exists x. split.
        -- apply elem_of_app. right. apply list_elem_of_singleton. reflexivity.
        -- destruct (did x); try discriminate. injection Hx as -> ->.
           reflexivity.
      * rewrite lookup_insert_ne by exact Hne. intros H.
        destruct (IH H) as (y & Hy & Hd). exists y. split; [|exact Hd].
        apply elem_of_app. left. exact Hy.
    + intros H. destruct (IH H) as (y & Hy & Hd). exists y. split; [|exact Hd].
      apply elem_of_app. left. exact Hy.
Qed.

Lemma replay_is_Some tr email :
  is_Some (replay tr !! email) <-> email ∈ resolved tr.
Proof.
  induction tr as [|x tr IH] using rev_ind.
  - unfold replay, resolved. simpl. rewrite lookup_empty. split.
    + intros [? H]. discriminate.
    + intros H. apply elem_of_nil in H. destruct H.
  - rewrite replay_snoc, resolved_snoc, elem_of_app.
    destruct (recorded (did x)) as [[e st]|].
    + rewrite list_elem_of_singleton.
      destruct (decide (e = email)) as [->|Hne].
      * rewrite lookup_insert_eq. split; [auto | eauto].
      * rewrite lookup_insert_ne by exact Hne. rewrite IH.
        split; [auto | intros [H|H]; [exact H | congruence]].
    + rewrite IH. split; [auto | intros [H|H]; [exact H|]].
      apply elem_of_nil in H. destruct H.
Qed.

Lemma results_replayed emails_per_session n emails sched :
  results (run emails_per_session sched (init n emails))
  = replay (trace (run emails_per_session sched (init n emails))).
Proof.
  apply (run_induction emails_per_session n emails
           (fun s => results s = replay (trace s))); [reflexivity|].
  intros s who i s' HP _ Hstep.
  apply sys_step_cases in Hstep
    as [(e & rest & q' & -> & Hp & Hput & ->)
       |(w & l & l' & q' & r' & ev & -> & Hl & Hst & ->)];
    simpl; [exact HP|].
  rewrite replay_snoc. simpl.
  step_cases Hst; simpl; rewrite <- HP; reflexivity.
Qed.

(** The statuses a worker stores are classifications. *)
Lemma stores_classified emails_per_session n emails sched w l :
  workers (run emails_per_session sched (init n emails)) !! w = Some l ->
  (forall email status,
      at_ l = Store email status -> EmailChecker.classification status)
  /\ Forall (fun x => forall email status,
                did x = Recorded email status ->
                EmailChecker.classification status)
       (history w (trace (run emails_per_session sched (init n emails)))).
Proof.
  apply (per_worker_induction emails_per_session n emails
           (fun l h =>
              (forall email status,
                  at_ l = Store email status ->
                  EmailChecker.classification status)
              /\ Forall (fun x => forall email status,
                            did x = Recorded email status ->
                            EmailChecker.classification status) h)).
  - split; [discriminate | constructor].
  - intros w0 l0 qu res i l' qu' res' ev h [Hst Hh] Hstep _.
    rewrite Forall_app, Forall_singleton. simpl.
    step_cases Hstep; simpl;
      (split; [|split; [exact Hh|]]); try discriminate.
    + intros e st [= <- <-].
      unfold call_check_email in E0. destruct (posted i); [|discriminate].
      injection E0 as E0. apply check_email_Some in E0. apply E0.
    + intros e st [= <- <-]. eapply Hst; eauto.
Qed.

Lemma trace_in_history emails_per_session n emails sched x :
  x ∈ trace (run emails_per_session sched (init n emails)) ->
  exists l,
    workers (run emails_per_session sched (init n emails)) !! by_worker x
    = Some l
    /\ x ∈ history (by_worker x)
             (trace (run emails_per_session sched (init n emails))).
Proof.
  intros Hx.
  assert (Hh : x ∈ history (by_worker x)
                     (trace (run emails_per_session sched (init n emails)))).
  { unfold history. apply list_elem_of_filter. split; [reflexivity | exact Hx]. }
  destruct (invariant_reachable emails_per_session n emails sched)
    as (_ & _ & Hno).
  destruct (workers (run emails_per_session sched (init n emails))
              !! by_worker x) as [l|] eqn:Hl; [eauto|].
  rewrite (Hno _ Hl) in Hh. apply elem_of_nil in Hh. destruct Hh.
Qed.

End Results.

(** ** Candidates, from the input to the result dict *)

Section Candidates.
Import Worker Engine Log Ledger.

(** X1.  Along every interleaving every candidate of the input is in
    exactly one place, as often as the input has it: still with the
    producer, in the queue, held by a worker between its dequeue and its
    re-enqueue or store, or stored.  None is lost and none is doubled,
    whatever fails and whichever workers return. *)
Theorem candidates_conserved emails_per_session n emails sched :
  whereabouts (run emails_per_session sched (init n emails)) ≡ₚ emails.
Proof.
  apply (Permutation_count_occ string_dec). intros email.
  apply (whereabouts_counted emails_per_session n emails sched email).
Qed.

Lemma resolved_in_input emails_per_session n emails sched email :
  email ∈ resolved (trace (run emails_per_session sched (init n emails))) ->
  email ∈ emails.
Proof.
  intros Hin.
  pose proof (whereabouts_counted emails_per_session n emails sched email)
    as Hcount.
  unfold whereabouts, occurrences in Hcount.
  rewrite !count_occ_app in Hcount.
  apply list_elem_of_In in Hin.
  apply (count_occ_In string_dec) in Hin.
  apply list_elem_of_In, (count_occ_In string_dec). lia.
Qed.

(** X2.  Along every interleaving the result dict is what the stores of
    the log give when done in order (a later store of an e-mail replaces
    an earlier one); each of its keys is an e-mail of the input, each of
    its values one of the three classifications; and it has at most as
    many entries as the input has e-mails. *)
Theorem results_integrity emails_per_session n emails sched :
  let s := run emails_per_session sched (init n emails) in
  results s = replay (trace s)
  /\ (forall email status,
        results s !! email = Some status ->
        email ∈ emails /\ EmailChecker.classification status)
  /\ (size (results s) <= length emails)%nat.
Proof.
  intros s.
  pose proof (results_replayed emails_per_session n emails sched) as Hrep.
  fold s in Hrep.
  assert (Hkeys : forall email, is_Some (results s !! email) -> email ∈ emails).
  { intros email Hsome. rewrite Hrep in Hsome.
    apply replay_is_Some in Hsome.
    apply (resolved_in_input emails_per_session n emails sched email Hsome). }
  split; [exact Hrep|]. split.
  - intros email status Hlook. split; [apply Hkeys; eauto|].
    rewrite Hrep in Hlook.
    apply replay_lookup_Some in Hlook as (x & Hx & Hd).
    destruct (trace_in_history emails_per_session n emails sched x Hx)
      as (l & Hl & Hh).
    destruct (stores_classified emails_per_session n emails sched _ l Hl)
      as [_ Hall].
    rewrite Forall_forall in Hall. eapply Hall; eauto.
  - rewrite <- size_dom.
    change (size (dom (results s))) with (length (elements (dom (results s)))).
    apply submseteq_length, NoDup_submseteq; [apply NoDup_elements|].
    intros email Hin. apply Hkeys.
    apply elem_of_elements, elem_of_dom in Hin. exact Hin.
Qed.

Lemma results_integrity_witness :
  results (run 2 Scenario.both_resolved (init 1 Fixtures.two_emails))
    !! "taken@x.com" = Some "Registered"
  /\ "taken@x.com" ∈ Fixtures.two_emails
  /\ EmailChecker.classification "Registered".
Proof.
  assert (H : results (run 2 Scenario.both_resolved
                         (init 1 Fixtures.two_emails))
                !! "taken@x.com" = Some "Registered")
    by (vm_compute; reflexivity).
  split; [exact H|].
  apply (proj1 (proj2 (results_integrity 2 1 Fixtures.two_emails
                         Scenario.both_resolved)) _ _ H).
Defined.


(** X3.  Along every interleaving, when the queue's count of unfinished
    tasks is zero (the condition [email_q.join()] in [main] waits for),
    the queue is empty and no worker is between a dequeue and its
    [task_done]. *)
Theorem drained_means_idle emails_per_session n emails sched :
  let s := run emails_per_session sched (init n emails) in
  Queue.unfinished_tasks (q s) = 0 ->
  Queue.items (q s) = []
  /\ forall w l, workers s !! w = Some l ->
                 in_flight (at_ l) = 0 /\ held (at_ l) = [].
Proof.
  intros s Hzero.
  destruct (invariant_reachable emails_per_session n emails sched)
    as (Hacc & _ & _). fold s in Hacc.
  unfold accounted, Queue.qsize in Hacc.
  pose proof (in_flight_total_nonneg (workers s)) as Hnn.
  split.
  - destruct (Queue.items (q s)); [reflexivity | simpl in Hacc; lia].
  - intros w l Hl. pose proof (in_flight_total_ge _ _ _ Hl) as Hge.
    pose proof (in_flight_range (at_ l)) as Hr.
    assert (Hz : in_flight (at_ l) = 0) by lia. split; [exact Hz|].
    destruct (at_ l); try reflexivity; simpl in Hz; lia.
Qed.

Lemma drained_means_idle_witness :
  Queue.unfinished_tasks
    (q (run 2 Scenario.both_resolved (init 1 Fixtures.two_emails))) = 0
  /\ Queue.items
       (q (run 2 Scenario.both_resolved (init 1 Fixtures.two_emails))) = [].
Proof.
  assert (Hzero : Queue.unfinished_tasks
                    (q (run 2 Scenario.both_resolved
                          (init 1 Fixtures.two_emails))) = 0)
    by (vm_compute; reflexivity).
  split; [exact Hzero|].
  apply (drained_means_idle 2 1 Fixtures.two_emails Scenario.both_resolved
           Hzero).
Defined.

Lemma held_total_idle ws :
  (forall w l, ws !! w = Some l -> held (at_ l) = []) -> held_total ws = [].
Proof.
  induction ws as [|l ws IH]; intros Hall; [reflexivity|].
  simpl. rewrite (Hall 0%nat l eq_refl). simpl.
  apply IH. intros w l' Hl'. apply (Hall (S w) l' Hl').
Qed.

(** X4.  Along every interleaving, once the producer has put every
    e-mail and the count of unfinished tasks is zero, the stores of the
    log are the e-mails of the input, each as often as the input has it,
    and the keys of the result dict are exactly the e-mails of the
    input. *)
Theorem all_resolved_when_drained emails_per_session n emails sched :
  let s := run emails_per_session sched (init n emails) in
  pending s = [] ->
  Queue.unfinished_tasks (q s) = 0 ->
  resolved (trace s) ≡ₚ emails
  /\ forall email, email ∈ emails <-> is_Some (results s !! email).
Proof.
  intros s Hpending Hzero.
  assert (Hres : resolved (trace s) ≡ₚ emails).
  { apply (Permutation_count_occ string_dec). intros email.
    pose proof (whereabouts_counted emails_per_session n emails sched email)
      as Hcount. fold s in Hcount.
    unfold whereabouts, occurrences in Hcount.
    destruct (invariant_reachable emails_per_session n emails sched)
      as (Hacc & _ & _). fold s in Hacc.
    unfold accounted, Queue.qsize in Hacc.
    pose proof (in_flight_total_nonneg (workers s)) as Hnn.
    assert (Hitems : Queue.items (q s) = []).
    { destruct (Queue.items (q s)); [reflexivity | simpl in Hacc; lia]. }
    assert (Hheld : held_total (workers s) = []).
    { apply held_total_idle. intros w l Hl.
      pose proof (in_flight_total_ge _ _ _ Hl) as Hge.
      pose proof (in_flight_range (at_ l)) as Hr.
      destruct (at_ l); try reflexivity; simpl in Hge; lia. }
    rewrite Hpending, Hitems, Hheld in Hcount. exact Hcount. }
  split; [exact Hres|]. intros email. unfold s.
  rewrite (results_replayed emails_per_session n emails sched).
  fold s. rewrite replay_is_Some.
  split; intros H.
  - rewrite Hres. exact H.
  - rewrite <- Hres. exact H.
Qed.

Lemma all_resolved_when_drained_witness :
  pending (run 2 Scenario.both_resolved (init 1 Fixtures.two_emails)) = []
  /\ Queue.unfinished_tasks
       (q (run 2 Scenario.both_resolved (init 1 Fixtures.two_emails))) = 0
  /\ resolved
       (trace (run 2 Scenario.both_resolved (init 1 Fixtures.two_emails)))
     ≡ₚ Fixtures.two_emails.
Proof.
  assert (Hp : pending (run 2 Scenario.both_resolved
                          (init 1 Fixtures.two_emails)) = [])
    by (vm_compute; reflexivity).
  assert (Hz : Queue.unfinished_tasks
                 (q (run 2 Scenario.both_resolved
                       (init 1 Fixtures.two_emails))) = 0)
    by (vm_compute; reflexivity).
  split; [exact Hp|]. split; [exact Hz|].
  apply (all_resolved_when_drained 2 1 Fixtures.two_emails
           Scenario.both_resolved Hp Hz).
Defined.

End Candidates.

(** ** The queue's bound, the worker's variables, and the end of a run *)

Section WorkerVariables.
Import Worker Engine Log Ledger.

(** X5.  Along every interleaving the queue [main] makes keeps its
    bound: [maxsize] stays 5000 and the queue never holds more than 5000
    candidates, re-enqueued ones included. *)
Theorem queue_stays_bounded emails_per_session n emails sched :
  let s := run emails_per_session sched (init n emails) in
  Queue.maxsize (q s) = 5000 /\ Queue.qsize (q s) <= 5000.
Proof.
  apply (run_induction emails_per_session n emails
           (fun s => Queue.maxsize (q s) = 5000 /\ Queue.qsize (q s) <= 5000)).
  - split; [reflexivity | unfold Queue.qsize; simpl; lia].
  - intros s who i s' [Hmax Hsize] _ Hstep.
    apply sys_step_cases in Hstep
      as [(e & rest & q' & -> & Hp & Hput & ->)
         |(w & l & l' & q' & r' & ev & -> & Hl & Hst & ->)]; simpl.
    + queue_cases. unfold Queue.full, Queue.qsize in *. simpl.
      rewrite length_app. simpl. rewrite Hmax in Hfull. simpl in Hfull.
      split; [exact Hmax|].
      destruct (Z.leb_spec 5000 (Z.of_nat (length (Queue.items (q s)))));
        [discriminate | lia].
    + step_cases Hst; queue_cases; unfold Queue.full, Queue.qsize in *;
        simpl; rewrite ?Hitems in *; simpl in *;
        rewrite ?length_app; simpl;
        (split; [exact Hmax|]); lia.
Qed.

Lemma attempt_session_break l i sid tok :
  attempt_session l i = inl (sid, tok) <->
  generated i = Some sid
  /\ GetCsrf.get_csrf_token (page i) = GetCsrf.Return (Some tok)
  /\ tok <> EmptyString.
Proof.
  unfold attempt_session.
  destruct (generated i) as [sid0|]; [|split; [discriminate | intros [[=] _]]].
  destruct (GetCsrf.get_csrf_token (page i)) as [[tok0|]|];
    try (split; [discriminate | intros (_ & [=] & _)]).
  destruct (String.eqb_spec tok0 EmptyString) as [->|Hne]; split.
  - discriminate.
  - intros (_ & [= <-] & Hne). congruence.
  - intros [= <- <-]. auto.
  - intros ([= <-] & [= <-] & _). reflexivity.
Qed.

(** X6.  Along every interleaving a worker that is between the [break]
    out of the acquisition loop and the end of its session, and so at
    every call of [check_email], has a session id and a token that is not
    empty. *)
Theorem in_session_armed emails_per_session n emails sched w l :
  workers (run emails_per_session sched (init n emails)) !! w = Some l ->
  in_session (at_ l) -> armed l.
Proof.
  intros Hl.
  apply (per_worker_induction emails_per_session n emails
           (fun l _ => in_session (at_ l) -> armed l)) with (sched := sched)
    (w := w); [intros [] | | exact Hl].
  clear. intros w l qu res i l' qu' res' ev h Hinv Hstep _.
  step_cases Hstep; simpl;
    (intros Hin; try contradiction; clear Hin);
    unfold armed in *; simpl in *; try (apply Hinv; exact I).
  apply attempt_session_break in E0 as (_ & _ & Hne). eauto.
Qed.

Lemma in_session_armed_witness :
  exists l,
    workers (run 1 Fixtures.one_resolved (init 1 Fixtures.two_emails)) !! 0%nat
    = Some l
    /\ in_session (at_ l) /\ armed l.
Proof.
  pose proof (in_session_armed 1 1 Fixtures.two_emails Fixtures.one_resolved
                0%nat) as H.
  eexists. split; [vm_compute; reflexivity|].
  split; [exact I|]. apply H; [vm_compute; reflexivity | exact I].
Defined.



End WorkerVariables.

(** ** When every worker has returned *)

Section AllReturned.
Import Worker Engine Log Ledger.

Lemma returned_stays emails_per_session l qu res i :
  returned l -> worker_step emails_per_session l qu res i = None.
Proof. unfold worker_step. intros [-> | ->]; reflexivity. Qed.

Lemma all_returned_run emails_per_session sched s :
  Forall returned (workers s) ->
  workers (run emails_per_session sched s) = workers s
  /\ results (run emails_per_session sched s) = results s
  /\ trace (run emails_per_session sched s) = trace s
  /\ Queue.unfinished_tasks (q s)
     <= Queue.unfinished_tasks (q (run emails_per_session sched s)).
Proof.
  revert s. induction sched as [|[who i] sched IH]; intros s Hall.
  - simpl. repeat split; try reflexivity; lia.
  - simpl.
    destruct (sys_step emails_per_session s who i) as [s'|] eqn:Hstep; simpl;
      [|apply IH, Hall].
    apply sys_step_cases in Hstep
      as [(e & rest & q' & -> & Hp & Hput & ->)
         |(w & l & l' & q' & r' & ev & -> & Hl & Hst & ->)].
    + destruct (IH {| q := q'; results := results s; workers := workers s;
                      pending := rest; trace := trace s |} Hall)
        as (Hw & Hr & Ht & Hu). simpl in *.
      repeat split; try assumption. queue_cases. simpl in Hu. lia.
    + rewrite Forall_lookup in Hall.
      rewrite (returned_stays _ _ _ _ _ (Hall w l Hl)) in Hst. discriminate.
Qed.

(** X8.  Once every worker has returned, nothing a later step does
    changes the workers, the result dict or the log, and the count of
    unfinished tasks does not go down again; so if candidates are in the
    queue at that time, the count never reaches zero, which
    [email_q.join()] in [main] waits for. *)
Theorem all_returned_freezes emails_per_session n emails sched later :
  let s := run emails_per_session sched (init n emails) in
  let s' := run emails_per_session (sched ++ later) (init n emails) in
  Forall returned (workers s) ->
  workers s' = workers s /\ results s' = results s /\ trace s' = trace s
  /\ Queue.unfinished_tasks (q s) <= Queue.unfinished_tasks (q s')
  /\ (Queue.items (q s) <> [] -> 0 < Queue.unfinished_tasks (q s')).
Proof.
  intros s s' Hall. unfold s'. rewrite run_app. fold s.
  destruct (all_returned_run emails_per_session later s Hall)
    as (Hw & Hr & Ht & Hu).
  repeat split; try assumption.
  intros Hitems.
  destruct (invariant_reachable emails_per_session n emails sched)
    as (Hacc & _ & _). fold s in Hacc.
  unfold accounted, Queue.qsize in Hacc.
  pose proof (in_flight_total_nonneg (workers s)).
  destruct (Queue.items (q s)); [congruence | simpl in Hacc; lia].
Qed.

Lemma all_returned_freezes_witness :
  Forall returned
    (workers (run 1 Scenario.stranded (init 1 Fixtures.two_emails)))
  /\ 0 < Queue.unfinished_tasks
           (q (run 1 (Scenario.stranded
                        ++ [(Producer, Fixtures.no_session);
                            (WorkerThread 0, Fixtures.answering EmptyString)])
                 (init 1 Fixtures.two_emails))).
Proof.
  assert (Hall : Forall returned
                   (workers (run 1 Scenario.stranded
                               (init 1 Fixtures.two_emails)))).
  { vm_compute. constructor; [left; reflexivity | constructor]. }
  split; [exact Hall|].
  pose proof (all_returned_freezes 1 1 Fixtures.two_emails Scenario.stranded
                [(Producer, Fixtures.no_session);
                 (WorkerThread 0, Fixtures.answering EmptyString)]) as H.
  cbv zeta in H. destruct (H Hall) as (_ & _ & _ & _ & Hpos).
  apply Hpos. vm_compute. discriminate.
Defined.

End AllReturned.

(** ** The token lookup *)

Section TokenLookup.
Import GetCsrf.

Lemma find_first_match {A} (f : A -> bool) l x :
  List.find f l = Some x <-> first_match f l x.
Proof.
  unfold first_match. induction l as [|y l IH]; simpl.
  - split; [discriminate | intros (b & a & Hl & _)].
    destruct b; discriminate.
  - destruct (f y) eqn:Hy; split.
    + intros [= ->]. exists [], l. repeat split; auto.
    + intros (b & a & Hl & Hx & Hb). destruct b as [|z b].
      * injection Hl as -> _. reflexivity.
      * injection Hl as -> _. apply Forall_cons in Hb as [Hz _]. congruence.
    + intros (b & a & -> & Hx & Hb)%IH.
      exists (y :: b), a. repeat split; auto.
    + intros (b & a & Hl & Hx & Hb). apply IH. destruct b as [|z b].
      * injection Hl as -> _. congruence.
      * injection Hl as -> ->. apply Forall_cons in Hb as [_ Hb]. eauto.
Qed.

Lemma matches_spec name wanted nm at_ cs :
  matches name wanted (Tag nm at_ cs) = true <->
  nm = name /\ forall k v, (k, v) ∈ wanted -> at_ !! k = Some v.
Proof.
  simpl. rewrite andb_true_iff, String.eqb_eq, forallb_forall. split.
  - intros [-> Hall]. split; [reflexivity|]. intros k v Hin.
    apply list_elem_of_In in Hin. apply Hall in Hin.
    apply bool_decide_eq_true in Hin. exact Hin.
  - intros [-> Hall]. split; [reflexivity|]. intros [k v] Hin.
    apply bool_decide_eq_true. simpl. apply Hall, list_elem_of_In, Hin.
Qed.

Lemma parse_token_nonempty soup tok :
  parse_token soup = Some tok -> tok <> EmptyString.
Proof.
  unfold parse_token.
  destruct (find _ _ soup) as [ac|]; [|discriminate].
  destruct (find _ _ ac) as [inp|]; [|discriminate].
  destruct (getitem inp "value") as [v|]; [|discriminate].
  destruct (String.eqb_spec v EmptyString) as [->|Hne]; [discriminate|].
  intros [= ->]. exact Hne.
Qed.

(** X9.  [get_csrf_token] looks the token up in the first element, in
    document order, named [auto-check] whose [src] is
    [/email_validity_checks], and there in the first [input] element with
    [type="hidden"] and [data-csrf="true"]: the token is the [value] of
    that input when it is there and not empty, and in every other case
    (no such element, no such input in the first such element, no value,
    an empty value) there is none.  An element matches when it has the
    name and each wanted attribute with the wanted value. *)
Theorem parse_token_first_match :
  (forall soup tok,
     parse_token soup = Some tok <->
     exists auto_check csrf_input,
       first_match (matches "auto-check" [("src", "/email_validity_checks")])
         (descendants soup) auto_check
       /\ first_match
            (matches "input" [("type", "hidden"); ("data-csrf", "true")])
            (descendants auto_check) csrf_input
       /\ getitem csrf_input "value" = Some tok
       /\ tok <> EmptyString)
  /\ (forall name wanted nm at_ cs,
        matches name wanted (Tag nm at_ cs) = true <->
        nm = name /\ forall k v, (k, v) ∈ wanted -> at_ !! k = Some v).
Proof.
  split; [|apply matches_spec].
  intros soup tok. unfold parse_token, find. split.
  - destruct (List.find _ (descendants soup)) as [ac|] eqn:Hac; [|discriminate].
    destruct (List.find _ (descendants ac)) as [inp|] eqn:Hinp; [|discriminate].
    destruct (getitem inp "value") as [v|] eqn:Hv; [|discriminate].
    destruct (String.eqb_spec v EmptyString) as [->|Hne]; [discriminate|].
    intros [= ->]. exists ac, inp.
    apply find_first_match in Hac. apply find_first_match in Hinp. auto.
  - intros (ac & inp & Hac & Hinp & Hv & Hne).
    apply find_first_match in Hac. apply find_first_match in Hinp.
    rewrite Hac, Hinp, Hv.
    destruct (String.eqb_spec tok EmptyString); [congruence | reflexivity].
Qed.

Lemma parse_token_first_match_witness :
  parse_token Fixtures.signup_page = Some "tok-1"
  /\ exists auto_check csrf_input,
       first_match (matches "auto-check" [("src", "/email_validity_checks")])
         (descendants Fixtures.signup_page) auto_check
       /\ first_match
            (matches "input" [("type", "hidden"); ("data-csrf", "true")])
            (descendants auto_check) csrf_input
       /\ getitem csrf_input "value" = Some "tok-1"
       /\ "tok-1" <> EmptyString.
Proof.
  assert (H : parse_token Fixtures.signup_page = Some "tok-1")
    by (vm_compute; reflexivity).
  split; [exact H|].
  apply (proj1 parse_token_first_match Fixtures.signup_page "tok-1"), H.
Defined.

(** X10.  [get_csrf_token] returns a token exactly when the response has
    a status that reaches the parsing of the page and the page carries
    the token; the token it returns is never empty, so the truth test of
    the worker on it never fails: an attempt of the worker ends in
    [break] exactly when the session could be made and [get_csrf_token]
    returned a token. *)
Theorem token_only_from_parsed_page :
  (forall get tok,
     get_csrf_token get = Return (Some tok) <->
     exists r, get = Responded r /\ reaches_parsing (status_code r)
               /\ parse_token (text r) = Some tok)
  /\ (forall get tok,
        get_csrf_token get = Return (Some tok) -> tok <> EmptyString)
  /\ (forall l i sid tok,
        Worker.attempt_session l i = inl (sid, tok) <->
        Worker.generated i = Some sid
        /\ get_csrf_token (Worker.page i) = Return (Some tok)).
Proof.
  assert (Hiff : forall get tok,
             get_csrf_token get = Return (Some tok) <->
             exists r, get = Responded r /\ reaches_parsing (status_code r)
                       /\ parse_token (text r) = Some tok).
  { intros [r|e] tok; split.
    - intros Hret. exists r. split; [reflexivity|].
      destruct (blocking_status_dec (status_code r)) as [Hb|Hnb].
      { rewrite (proj1 (get_csrf_token_cases r)) in Hret by tauto.
        discriminate. }
      destruct (Z.le_gt_cases 400 (status_code r)),
               (Z.le_gt_cases 600 (status_code r));
        try (rewrite (proj1 (get_csrf_token_cases r)) in Hret by lia;
             discriminate);
        (assert (reaches_parsing (status_code r)) as Hrp
           by (split; [exact Hnb | lia]));
        (split; [exact Hrp|]);
        rewrite (proj2 (get_csrf_token_cases r) Hrp) in Hret;
        destruct (parse_token (text r)); congruence.
    - intros (r' & [= <-] & Hrp & Htok).
      rewrite (proj2 (get_csrf_token_cases r) Hrp), Htok. reflexivity.
    - unfold get_csrf_token. simpl. rewrite except_clauses_none. discriminate.
    - intros (r & Hr & _). discriminate. }
  assert (Hne : forall get tok,
             get_csrf_token get = Return (Some tok) -> tok <> EmptyString).
  { intros get tok (r & _ & _ & Htok)%Hiff.
    apply (parse_token_nonempty _ _ Htok). }
  split; [exact Hiff|]. split; [exact Hne|].
  intros l i sid tok. rewrite attempt_session_break. split.
  - intros (Hg & Ht & _). auto.
  - intros [Hg Ht]. eauto.
Qed.

Lemma token_only_from_parsed_page_witness :
  get_csrf_token (Responded (Response 200 Fixtures.signup_page))
  = Return (Some "tok-1")
  /\ "tok-1" <> EmptyString.
Proof.
  assert (H : get_csrf_token (Responded (Response 200 Fixtures.signup_page))
              = Return (Some "tok-1"))
    by (vm_compute; reflexivity).
  split; [exact H|].
  apply (proj1 (proj2 token_only_from_parsed_page) _ _ H).
Defined.


End TokenLookup.

(** ** [str.strip] and the producer *)

Section StripFrom.
Import EmailLoader.

Variable ws : list (list ascii).
Hypothesis ws_nonempty : forall w, w ∈ ws -> w <> [].

Lemma starts_spec w l : starts w l = true <-> exists r, l = w ++ r.
Proof.
  revert l. induction w as [|a w IH]; intros l; simpl.
  - split; [eauto | reflexivity].
  - destruct l as [|b l]; [split; [discriminate | intros [r [=]]]|].
    rewrite andb_true_iff, Ascii.eqb_eq, IH. split.
    + intros [-> [r ->]]. eauto.
    + intros [r [= -> ->]]. eauto.
Qed.

Lemma after_space_Some l r :
  after_space ws l = Some r -> exists w, w ∈ ws /\ l = w ++ r.
Proof.
  unfold after_space.
  destruct (List.find _ ws) as [w|] eqn:Hfind; [|discriminate].
  intros [= <-]. apply find_some in Hfind as [Hin Hst].
  apply starts_spec in Hst as [r ->]. exists w.
  split; [apply list_elem_of_In, Hin|].
  rewrite drop_app_length. reflexivity.
Qed.

Lemma after_space_None l :
  after_space ws l = None <-> forall w r, w ∈ ws -> l <> w ++ r.
Proof.
  unfold after_space. split.
  - destruct (List.find _ ws) as [w|] eqn:Hfind; [discriminate|].
    intros _ w r Hin ->.
    pose proof (find_none _ _ Hfind w (proj1 (list_elem_of_In _ _) Hin)) as Hn.
    simpl in Hn. assert (starts w (w ++ r) = true) by (apply starts_spec; eauto).
    congruence.
  - intros Hno. destruct (List.find _ ws) as [w|] eqn:Hfind; [|reflexivity].
    apply find_some in Hfind as [Hin Hst].
    apply starts_spec in Hst as [r ->].
    exfalso. apply (Hno w r); [apply list_elem_of_In, Hin | reflexivity].
Qed.

Lemma lstrip_from_split fuel l :
  exists ts, Forall (fun t => t ∈ ws) ts
             /\ l = concat ts ++ lstrip_from ws fuel l.
Proof.
  revert l. induction fuel as [|fuel IH]; intros l; simpl.
  - exists []. split; [constructor | reflexivity].
  - destruct (after_space ws l) as [rest|] eqn:Hsp.
    + apply after_space_Some in Hsp as (w & Hw & ->).
      destruct (IH rest) as (ts & Hts & Hrest).
      exists (w :: ts). split; [constructor; assumption|].
      simpl. rewrite <- app_assoc. f_equal. exact Hrest.
    + exists []. split; [constructor | reflexivity].
Qed.

Lemma lstrip_from_done fuel l :
  (length l <= fuel)%nat -> after_space ws (lstrip_from ws fuel l) = None.
Proof.
  revert l. induction fuel as [|fuel IH]; intros l Hlen; simpl.
  - destruct l; [|simpl in Hlen; lia].
    apply after_space_None. intros w r Hw Heq.
    destruct w; [apply (ws_nonempty [] Hw); reflexivity | discriminate].
  - destruct (after_space ws l) as [rest|] eqn:Hsp; [|exact Hsp].
    apply IH. apply after_space_Some in Hsp as (w & Hw & ->).
    rewrite length_app in Hlen.
    destruct w; [exfalso; apply (ws_nonempty [] Hw); reflexivity|].
    simpl in Hlen. lia.
Qed.

Hypothesis ws_prefix_free :
  forall w w' a b, w ∈ ws -> w' ∈ ws -> w ++ a = w' ++ b -> w = w'.

Lemma after_space_token w r : w ∈ ws -> after_space ws (w ++ r) = Some r.
Proof.
  intros Hw. destruct (after_space ws (w ++ r)) as [r'|] eqn:Hsp.
  - apply after_space_Some in Hsp as (w' & Hw' & Heq).
    pose proof (ws_prefix_free _ _ _ _ Hw Hw' Heq) as <-.
    apply app_inv_head in Heq. congruence.
  - exfalso. rewrite after_space_None in Hsp. apply (Hsp w r Hw). reflexivity.
Qed.

Lemma lstrip_from_run ts core fuel :
  Forall (fun t => t ∈ ws) ts ->
  after_space ws core = None ->
  (length (concat ts ++ core) <= fuel)%nat ->
  lstrip_from ws fuel (concat ts ++ core) = core.
Proof.
  intros Hts Hcore. revert fuel.
  induction Hts as [|t ts Ht _ IH]; intros fuel Hlen; simpl in *.
  - destruct fuel; simpl; [reflexivity | rewrite Hcore; reflexivity].
  - destruct fuel as [|fuel].
    + destruct t; [exfalso; apply (ws_nonempty [] Ht); reflexivity|].
      simpl in Hlen. lia.
    + simpl. rewrite <- app_assoc, (after_space_token _ _ Ht).
      apply IH. rewrite <- app_assoc, length_app in Hlen.
      destruct t; [exfalso; apply (ws_nonempty [] Ht); reflexivity|].
      simpl in Hlen. lia.
Qed.

End StripFrom.

Section Whitespace.
Import EmailLoader.

Lemma prefix_free_check (ws : list (list ascii)) :
  forallb (fun w =>
             forallb (fun w' => negb (starts w w') || bool_decide (w = w')) ws)
          ws = true ->
  forall w w' a b, w ∈ ws -> w' ∈ ws -> w ++ a = w' ++ b -> w = w'.
Proof.
  intros Hcheck w w' a b Hw Hw' Heq.
  rewrite forallb_forall in Hcheck.
  assert (Hpair : forall x y, x ∈ ws -> y ∈ ws ->
                              (exists k, y = x ++ k) -> x = y).
  { intros x y Hx Hy Hpre.
    pose proof (Hcheck x (proj1 (list_elem_of_In _ _) Hx)) as Hrow.
    rewrite forallb_forall in Hrow.
    specialize (Hrow y (proj1 (list_elem_of_In _ _) Hy)).
    apply (starts_spec x y) in Hpre. rewrite Hpre in Hrow. simpl in Hrow.
    apply bool_decide_eq_true in Hrow. exact Hrow. }
  apply app_eq_inv in Heq as [(k & -> & _)|(k & -> & _)].
  - symmetry. apply Hpair; eauto.
  - apply Hpair; eauto.
Qed.

Lemma whitespace_nonempty w : w ∈ whitespace -> w <> [].
Proof.
  intros Hin ->. revert Hin. unfold whitespace, encoded. simpl.
  rewrite !elem_of_cons, elem_of_nil. intuition discriminate.
Qed.

Lemma whitespace_prefix_free w w' a b :
  w ∈ whitespace -> w' ∈ whitespace -> w ++ a = w' ++ b -> w = w'.
Proof. apply prefix_free_check. vm_compute. reflexivity. Qed.

Lemma rev_whitespace_nonempty w : w ∈ map (@rev ascii) whitespace -> w <> [].
Proof.
  intros Hin ->. apply list_elem_of_In, in_map_iff in Hin as (x & Hx & Hin).
  apply (whitespace_nonempty x); [apply list_elem_of_In, Hin|].
  destruct x; [reflexivity|]. simpl in Hx.
  apply app_eq_nil in Hx as [_ [=]].
Qed.

Lemma rev_whitespace_prefix_free w w' a b :
  w ∈ map (@rev ascii) whitespace -> w' ∈ map (@rev ascii) whitespace ->
  w ++ a = w' ++ b -> w = w'.
Proof. apply prefix_free_check. vm_compute. reflexivity. Qed.

(** The first byte of a whitespace character is no later byte of one. *)
Lemma whitespace_no_straddle w t a :
  w ∈ whitespace -> t ∈ whitespace -> head t = Some a -> a ∉ tail w.
Proof.
  assert (Hcheck :
            forallb (fun w =>
                       forallb (fun t =>
                                  match t with
                                  | [] => true
                                  | a :: _ => negb (bool_decide (a ∈ tail w))
                                  end) whitespace) whitespace = true)
    by (vm_compute; reflexivity).
  intros Hw Ht Hhead. rewrite forallb_forall in Hcheck.
  pose proof (Hcheck w (proj1 (list_elem_of_In _ _) Hw)) as Hrow.
  rewrite forallb_forall in Hrow.
  specialize (Hrow t (proj1 (list_elem_of_In _ _) Ht)).
  destruct t as [|a' t]; [discriminate|]. injection Hhead as ->.
  apply negb_true_iff, bool_decide_eq_false in Hrow. exact Hrow.
Qed.

(** A text that does not begin with whitespace still does not when
    whitespace is put behind it. *)
Lemma no_space_before_run core ts :
  after_space whitespace core = None -> core <> [] ->
  Forall (fun t => t ∈ whitespace) ts ->
  after_space whitespace (core ++ concat ts) = None.
Proof.
  intros Hcore Hne Hts. apply after_space_None. intros w r Hw Heq.
  rewrite after_space_None in Hcore.
  apply app_eq_inv in Heq as [(k & Hk & _)|(k & Hk & Hrun)].
  - apply (Hcore w k Hw Hk).
  - destruct k as [|a k].
    { rewrite app_nil_r in Hk. subst w. apply (Hcore core [] Hw).
      rewrite app_nil_r. reflexivity. }
    destruct Hts as [|t ts Ht Hts]; [discriminate|].
    destruct t as [|a' t]; [exact (whitespace_nonempty [] Ht eq_refl)|].
    simpl in Hrun. injection Hrun as -> _.
    apply (whitespace_no_straddle w (a :: t) a Hw Ht eq_refl).
    subst w. destruct core as [|c core]; [congruence|]. simpl.
    apply elem_of_app. right. apply elem_of_cons. left. reflexivity.
Qed.

Lemma rev_concat (ts : list (list ascii)) :
  rev (concat ts) = concat (rev (map (@rev ascii) ts)).
Proof.
  induction ts as [|t ts IH]; simpl; [reflexivity|].
  rewrite rev_app_distr, IH, concat_app. simpl. rewrite app_nil_r. reflexivity.
Qed.

Lemma rev_tokens ts :
  Forall (fun t => t ∈ map (@rev ascii) whitespace) ts ->
  Forall (fun t => t ∈ whitespace) (rev (map (@rev ascii) ts)).
Proof.
  intros Hts. apply Forall_forall. intros t Hin.
  apply list_elem_of_In, in_rev, in_map_iff in Hin as (x & <- & Hx).
  rewrite Forall_forall in Hts.
  specialize (Hts x (proj2 (list_elem_of_In _ _) Hx)).
  apply list_elem_of_In, in_map_iff in Hts as (y & <- & Hy).
  rewrite rev_involutive. apply list_elem_of_In, Hy.
Qed.

Lemma tokens_rev ts :
  Forall (fun t => t ∈ whitespace) ts ->
  Forall (fun t => t ∈ map (@rev ascii) whitespace)
    (rev (map (@rev ascii) ts)).
Proof.
  intros Hts. apply Forall_forall. intros t Hin.
  apply list_elem_of_In, in_rev, in_map_iff in Hin as (x & <- & Hx).
  rewrite Forall_forall in Hts.
  specialize (Hts x (proj2 (list_elem_of_In _ _) Hx)).
  apply list_elem_of_In, in_map. apply list_elem_of_In, Hts.
Qed.

(** What [lstrip_chars] then [rstrip_chars] leaves: the text between a
    run of whitespace at either end, itself with whitespace at neither
    end. *)
Lemma strip_chars_spec l :
  exists ts1 ts2,
    Forall (fun t => t ∈ whitespace) ts1
    /\ Forall (fun t => t ∈ whitespace) ts2
    /\ l = concat ts1 ++ rstrip_chars (lstrip_chars l) ++ concat ts2
    /\ (forall w r, w ∈ whitespace -> rstrip_chars (lstrip_chars l) <> w ++ r)
    /\ (forall w f, w ∈ whitespace -> rstrip_chars (lstrip_chars l) <> f ++ w).
Proof.
  unfold lstrip_chars.
  destruct (lstrip_from_split whitespace (length l) l) as (ts1 & Hts1 & Hl).
  pose proof (lstrip_from_done whitespace whitespace_nonempty (length l) l
                (le_n _)) as Hleft.
  set (m := lstrip_from whitespace (length l) l) in *.
  unfold rstrip_chars.
  destruct (lstrip_from_split (map (@rev ascii) whitespace) (length m) (rev m))
    as (ts' & Hts' & Hm).
  pose proof (lstrip_from_done (map (@rev ascii) whitespace)
                rev_whitespace_nonempty (length m) (rev m)) as Hright.
  rewrite length_rev in Hright. specialize (Hright (le_n _)).
  set (x := lstrip_from (map (@rev ascii) whitespace) (length m) (rev m)) in *.
  assert (Hm' : m = rev x ++ concat (rev (map (@rev ascii) ts'))).
  { rewrite <- rev_concat, <- rev_app_distr, <- Hm, rev_involutive.
    reflexivity. }
  exists ts1, (rev (map (@rev ascii) ts')).
  split; [exact Hts1|]. split; [apply rev_tokens, Hts'|].
  split; [rewrite <- Hm'; exact Hl|]. split.
  - intros w r Hw Heq. rewrite after_space_None in Hleft.
    apply (Hleft w (r ++ concat (rev (map (@rev ascii) ts'))) Hw).
    rewrite Hm', Heq, <- app_assoc. reflexivity.
  - intros w f Hw Heq. rewrite after_space_None in Hright.
    apply (Hright (rev w) (rev f)).
    + apply list_elem_of_In, in_map, list_elem_of_In, Hw.
    + rewrite <- rev_app_distr, <- Heq, rev_involutive. reflexivity.
Qed.

(** And it leaves exactly that. *)
Lemma strip_chars_unique ts1 core ts2 :
  Forall (fun t => t ∈ whitespace) ts1 ->
  Forall (fun t => t ∈ whitespace) ts2 ->
  (forall w r, w ∈ whitespace -> core <> w ++ r) ->
  (forall w f, w ∈ whitespace -> core <> f ++ w) ->
  rstrip_chars (lstrip_chars (concat ts1 ++ core ++ concat ts2)) = core.
Proof.
  intros Hts1 Hts2 Hstart Hend.
  destruct (decide (core = [])) as [->|Hne].
  { (* nothing but whitespace *)
    simpl. rewrite <- concat_app, <- (app_nil_r (concat (ts1 ++ ts2))).
    unfold lstrip_chars.
    rewrite (lstrip_from_run whitespace whitespace_nonempty
               whitespace_prefix_free);
      [reflexivity | apply Forall_app; auto | | apply le_n].
    apply after_space_None. exact Hstart. }
  assert (Hleft : lstrip_chars (concat ts1 ++ core ++ concat ts2)
                  = core ++ concat ts2).
  { unfold lstrip_chars.
    apply (lstrip_from_run whitespace whitespace_nonempty
             whitespace_prefix_free); [exact Hts1 | | apply le_n].
    apply no_space_before_run; [|exact Hne | exact Hts2].
    apply after_space_None. exact Hstart. }
  rewrite Hleft. unfold rstrip_chars.
  rewrite rev_app_distr, rev_concat.
  rewrite (lstrip_from_run (map (@rev ascii) whitespace)
             rev_whitespace_nonempty rev_whitespace_prefix_free).
  - apply rev_involutive.
  - apply tokens_rev, Hts2.
  - apply after_space_None. intros w r Hw Heq.
    apply list_elem_of_In, in_map_iff in Hw as (y & <- & Hy).
    apply (Hend y (rev r)); [apply list_elem_of_In, Hy|].
    rewrite <- (rev_involutive core), Heq, rev_app_distr, rev_involutive.
    reflexivity.
  - rewrite <- rev_concat, <- rev_app_distr, length_rev. apply le_n.
Qed.

End Whitespace.

Section Strip.
Import EmailLoader.

Lemma chars_app a b :
  list_ascii_of_string (a +:+ b)
  = list_ascii_of_string a ++ list_ascii_of_string b.
Proof. induction a as [|c a IH]; simpl; [reflexivity | rewrite IH; reflexivity]. Qed.

Lemma string_app l1 l2 :
  string_of_list_ascii (l1 ++ l2)
  = string_of_list_ascii l1 +:+ string_of_list_ascii l2.
Proof. induction l1 as [|c l1 IH]; simpl; [reflexivity | rewrite IH; reflexivity]. Qed.

Lemma chars_inj a b :
  list_ascii_of_string a = list_ascii_of_string b -> a = b.
Proof.
  intros H. rewrite <- (string_of_list_ascii_of_string a), H.
  apply string_of_list_ascii_of_string.
Qed.

Lemma space_at_start_iff s :
  space_at_start s <->
  after_space whitespace (list_ascii_of_string s) <> None.
Proof.
  rewrite after_space_None. unfold space_at_start. split.
  - intros (w & r & Hw & Heq) Hno. apply (Hno w r Hw Heq).
  - intros Hsome.
    destruct (after_space whitespace (list_ascii_of_string s)) as [r|] eqn:E.
    + apply after_space_Some in E as (w & Hw & Heq). eauto.
    + exfalso. apply Hsome. apply after_space_None. exact E.
Qed.

Lemma space_at_end_iff s :
  space_at_end s <->
  after_space (map (@rev ascii) whitespace) (rev (list_ascii_of_string s))
  <> None.
Proof.
  rewrite after_space_None. unfold space_at_end. split.
  - intros (w & f & Hw & Heq) Hno. apply (Hno (rev w) (rev f)).
    + apply list_elem_of_In, in_map, list_elem_of_In, Hw.
    + rewrite Heq, rev_app_distr. reflexivity.
  - intros Hsome.
    destruct (after_space (map (@rev ascii) whitespace)
                (rev (list_ascii_of_string s))) as [r|] eqn:E.
    + apply after_space_Some in E as (w & Hw & Heq).
      apply list_elem_of_In, in_map_iff in Hw as (y & <- & Hy).
      exists y, (rev r). split; [apply list_elem_of_In, Hy|].
      rewrite <- (rev_involutive (list_ascii_of_string s)), Heq,
        rev_app_distr, rev_involutive. reflexivity.
    + exfalso. apply Hsome. apply after_space_None. exact E.
Qed.

Lemma strip_decomposition s :
  exists pre post,
    s = pre +:+ strip s +:+ post
    /\ spaces pre /\ spaces post
    /\ ~ space_at_start (strip s) /\ ~ space_at_end (strip s).
Proof.
  destruct (strip_chars_spec (list_ascii_of_string s))
    as (ts1 & ts2 & Hts1 & Hts2 & Heq & Hstart & Hend).
  exists (string_of_list_ascii (concat ts1)), (string_of_list_ascii (concat ts2)).
  unfold strip. split; [|split; [|split; [|split]]].
  - apply chars_inj. rewrite !chars_app, !list_ascii_of_string_of_list_ascii.
    exact Heq.
  - exists ts1. rewrite list_ascii_of_string_of_list_ascii. auto.
  - exists ts2. rewrite list_ascii_of_string_of_list_ascii. auto.
  - intros (w & r & Hw & Hs).
    rewrite list_ascii_of_string_of_list_ascii in Hs. apply (Hstart w r Hw Hs).
  - intros (w & f & Hw & Hs).
    rewrite list_ascii_of_string_of_list_ascii in Hs. apply (Hend w f Hw Hs).
Qed.

Lemma strip_of_padded pre core post :
  spaces pre -> spaces post ->
  ~ space_at_start core -> ~ space_at_end core ->
  strip (pre +:+ core +:+ post) = core.
Proof.
  intros (ts1 & Hts1 & Hpre) (ts2 & Hts2 & Hpost) Hstart Hend.
  unfold strip. rewrite !chars_app, Hpre, Hpost.
  rewrite strip_chars_unique; auto.
  - apply string_of_list_ascii_of_string.
  - intros w r Hw Heq. apply Hstart. exists w, r. auto.
  - intros w f Hw Heq. apply Hend. exists w, f. auto.
Qed.

(** X11.  [s.strip()] is [s] without a run of whitespace characters at
    its start and one at its end, and it neither begins nor ends with a
    whitespace character. *)
Theorem strip_spec s :
  exists pre post,
    s = pre +:+ strip s +:+ post
    /\ spaces pre /\ spaces post
    /\ ~ space_at_start (strip s) /\ ~ space_at_end (strip s).
Proof. apply strip_decomposition. Qed.

(** X12.  Whitespace around a text that itself neither begins nor ends
    with whitespace is all that [strip] takes away: for [pre] and [post]
    made of whitespace characters only, [(pre + core + post).strip()] is
    [core]; with an empty [core], a string of whitespace only gives the
    empty string. *)
Theorem strip_unique pre core post :
  spaces pre -> spaces post ->
  ~ space_at_start core -> ~ space_at_end core ->
  strip (pre +:+ core +:+ post) = core.
Proof. apply strip_of_padded. Qed.

Lemma spaces_run ts :
  Forall (fun t => t ∈ whitespace) ts ->
  spaces (string_of_list_ascii (concat ts)).
Proof.
  intros Hts. exists ts. rewrite list_ascii_of_string_of_list_ascii. auto.
Qed.

Lemma strip_unique_witness :
  spaces "  " /\ spaces (String (ascii_of_N 10) EmptyString)
  /\ ~ space_at_start "a@x.com" /\ ~ space_at_end "a@x.com"
  /\ strip ("  " +:+ "a@x.com" +:+ String (ascii_of_N 10) EmptyString)
     = "a@x.com".
Proof.
  assert (H1 : spaces "  ").
  { apply (spaces_run [encoded [32]; encoded [32]]).
    repeat constructor; apply bool_decide_unpack; vm_compute; exact I. }
  assert (H2 : spaces (String (ascii_of_N 10) EmptyString)).
  { apply (spaces_run [encoded [10]]).
    repeat constructor; apply bool_decide_unpack; vm_compute; exact I. }
  assert (H3 : ~ space_at_start "a@x.com").
  { rewrite space_at_start_iff. vm_compute. tauto. }
  assert (H4 : ~ space_at_end "a@x.com").
  { rewrite space_at_end_iff. vm_compute. tauto. }
  split; [exact H1|]. split; [exact H2|].
  split; [exact H3|]. split; [exact H4|].
  apply (strip_unique "  " "a@x.com" (String (ascii_of_N 10) EmptyString)
           H1 H2 H3 H4).
Defined.







End Strip.

(** ** Identities: the proxy session and the headers *)

Section Identities.
Import ProxySessionManager GetHeaders.

Lemma choices_length {n k} (population : vec ascii n) (picks : vec (fin n) k) :
  String.length (choices population picks) = k.
Proof.
  unfold choices.
  assert (H : forall l, String.length (string_of_list_ascii l) = length l).
  { induction l as [|c l IH]; simpl; [reflexivity | rewrite IH; reflexivity]. }
  rewrite H, length_vec_to_list. reflexivity.
Qed.

Lemma choices_chars {n k} (population : vec ascii n) (picks : vec (fin n) k) c :
  c ∈ list_ascii_of_string (choices population picks) ->
  c ∈ vec_to_list population.
Proof.
  unfold choices. rewrite list_ascii_of_string_of_list_ascii.
  rewrite vec_to_list_map. intros (i & -> & _)%list_elem_of_fmap.
  apply elem_of_vlookup. eauto.
Qed.

Lemma choices_inj {n k} (population : vec ascii n) :
  (forall i j, population !!! i = population !!! j -> i = j) ->
  forall picks1 picks2 : vec (fin n) k,
    choices population picks1 = choices population picks2 -> picks1 = picks2.
Proof.
  intros Hinj picks1 picks2 Heq. unfold choices in Heq.
  apply (f_equal list_ascii_of_string) in Heq.
  rewrite !list_ascii_of_string_of_list_ascii, !vec_to_list_map in Heq.
  apply vec_to_list_inj2.
  revert Heq. generalize (vec_to_list picks1) (vec_to_list picks2).
  induction l as [|i l IH]; intros [|j l']; simpl; try discriminate;
    [reflexivity|].
  intros [= Hij Hl]. f_equal; [apply Hinj, Hij | apply IH, Hl].
Qed.

Lemma hex_digits_distinct i j :
  hex_digits !!! i = hex_digits !!! j -> i = j.
Proof.
  revert i j. apply (bool_decide_unpack _). vm_compute. exact I.
Qed.

Lemma append_inj_length a1 a2 b1 b2 :
  String.length a1 = String.length a2 ->
  a1 +:+ b1 = a2 +:+ b2 -> a1 = a2 /\ b1 = b2.
Proof.
  revert a2. induction a1 as [|c a1 IH]; intros [|c' a2] Hlen; simpl in *;
    try discriminate.
  - auto.
  - intros Heq. change (String c (a1 +:+ b1) = String c' (a2 +:+ b2)) in Heq.
    injection Heq as -> Heq. injection Hlen as Hlen.
    destruct (IH a2 Hlen Heq) as [-> ->]. auto.
Qed.

Lemma proxy_url_inj sid1 sid2 port1 port2 :
  String.length sid1 = String.length sid2 ->
  proxy_url sid1 port1 = proxy_url sid2 port2 ->
  sid1 = sid2 /\ port1 = port2.
Proof.
  intros Hlen Heq. unfold proxy_url in Heq.
  do 3 apply String.app_inj in Heq.
  apply append_inj_length in Heq as [-> Heq]; [|exact Hlen].
  do 3 apply String.app_inj in Heq.
  split; [reflexivity|]. apply (inj pretty) in Heq. exact Heq.
Qed.

(** X14.  [generate_session_and_proxy] fails exactly when the session
    object cannot be made.  Otherwise, whatever is drawn, the session id
    has 8 characters, all of them hexadecimal digits in lower case, and
    the proxy dict has the two keys [http] and [https], both with the URL
    that carries this session id and the drawn port. *)
Theorem generate_session_and_proxy_result :
  (forall picks port, generate_session_and_proxy None picks port = None)
  /\ (forall session picks port,
        exists proxies session_id,
          generate_session_and_proxy (Some session) picks port
          = Some (session, proxies, session_id)
          /\ String.length session_id = 8%nat
          /\ (forall c, c ∈ list_ascii_of_string session_id ->
                        c ∈ vec_to_list hex_digits)
          /\ proxies !! "http" = Some (proxy_url session_id port)
          /\ proxies !! "https" = Some (proxy_url session_id port)
          /\ forall k, is_Some (proxies !! k) -> k = "http" \/ k = "https").
Proof.
  split; [reflexivity|]. intros session picks port.
  eexists _, _. split; [reflexivity|].
  split; [apply choices_length|]. split; [apply choices_chars|].
  unfold dict_display. simpl.
  split; [|split].
  - rewrite lookup_insert_ne by discriminate. apply lookup_insert_eq.
  - apply lookup_insert_eq.
  - intros k [v Hk].
    destruct (decide (k = "https")) as [->|H1]; [auto|].
    destruct (decide (k = "http")) as [->|H2]; [auto|].
    rewrite !lookup_insert_ne, lookup_empty in Hk by congruence. discriminate.
Qed.

Lemma generate_session_and_proxy_result_witness :
  is_Some (dict_display [("http", proxy_url "0a1b2c3d" 10001);
                         ("https", proxy_url "0a1b2c3d" 10001)] !! "https")
  /\ ("https" = "http" \/ "https" = "https").
Proof.
  assert (H : is_Some (dict_display [("http", proxy_url "0a1b2c3d" 10001);
                                     ("https", proxy_url "0a1b2c3d" 10001)]
                         !! "https"))
    by (eexists; vm_compute; reflexivity).
  split; [exact H|].
  destruct (proj2 generate_session_and_proxy_result {| adapters := ∅ |}
              [# 6; 0; 7; 1; 8; 2; 9; 3]%fin 10001)
    as (proxies & sid & Heq & _ & _ & _ & _ & Hkeys).
  injection Heq as <- <-. apply Hkeys. exact H.
Defined.


(** X15.  Two identities have the same proxy URL only when the same
    session id and the same port were drawn: with session ids of equal
    length the URL determines both, and the eight draws determine the
    session id. *)
Theorem proxy_url_determines_identity :
  (forall sid1 sid2 port1 port2,
     String.length sid1 = String.length sid2 ->
     proxy_url sid1 port1 = proxy_url sid2 port2 ->
     sid1 = sid2 /\ port1 = port2)
  /\ (forall s1 s2 picks1 picks2 port1 port2 proxies sid1 sid2,
        generate_session_and_proxy (Some s1) picks1 port1
        = Some (s1, proxies, sid1) ->
        generate_session_and_proxy (Some s2) picks2 port2
        = Some (s2, proxies, sid2) ->
        picks1 = picks2 /\ port1 = port2).
Proof.
  split; [apply proxy_url_inj|].
  intros s1 s2 picks1 picks2 port1 port2 proxies sid1 sid2 H1 H2.
  simpl in H1, H2. injection H1 as Hp1 Hs1. injection H2 as Hp2 Hs2.
  assert (Hurl : proxy_url (choices hex_digits picks1) port1
                 = proxy_url (choices hex_digits picks2) port2).
  { assert (Hl : proxies !! "https"
                 = Some (proxy_url (choices hex_digits picks1) port1)).
    { rewrite <- Hp1. unfold dict_display. simpl. apply lookup_insert_eq. }
    rewrite <- Hp2 in Hl. unfold dict_display in Hl. simpl in Hl.
    rewrite lookup_insert_eq in Hl. congruence. }
  apply proxy_url_inj in Hurl as [Hsid Hport];
    [|rewrite !choices_length; reflexivity].
  split; [|exact Hport].
  apply (choices_inj hex_digits hex_digits_distinct), Hsid.
Qed.

Lemma proxy_url_determines_identity_witness :
  generate_session_and_proxy (Some {| adapters := ∅ |})
    [# 6; 0; 7; 1; 8; 2; 9; 3]%fin 10001
  = Some ({| adapters := ∅ |},
          dict_display [("http", proxy_url "0a1b2c3d" 10001);
                        ("https", proxy_url "0a1b2c3d" 10001)],
          "0a1b2c3d")
  /\ ([# 6; 0; 7; 1; 8; 2; 9; 3]%fin
      = [# 6; 0; 7; 1; 8; 2; 9; 3]%fin :> vec (fin 16) 8)
  /\ 10001 = 10001.
Proof.
  assert (H : generate_session_and_proxy (Some {| adapters := ∅ |})
                [# 6; 0; 7; 1; 8; 2; 9; 3]%fin 10001
              = Some ({| adapters := ∅ |},
                      dict_display [("http", proxy_url "0a1b2c3d" 10001);
                                    ("https", proxy_url "0a1b2c3d" 10001)],
                      "0a1b2c3d"))
    by reflexivity.
  split; [exact H|].
  apply (proj2 proxy_url_determines_identity _ _ _ _ _ _ _ _ _ H H).
Defined.

(** X16.  Whatever [random.choice] draws, the two header dicts of
    [generate_headers] carry the same [User-Agent], the drawn one of
    [USER_AGENTS]; every other header is the same for every draw; and the
    GET dict has 13 headers, the POST dict 15 ([sec-ch-ua-platform],
    written twice in it, being there once). *)
Theorem generate_headers_agree :
  forall pick pick',
    (generate_headers pick).1 !! "User-Agent"
    = Some (choice USER_AGENTS pick)
    /\ (generate_headers pick).2 !! "User-Agent"
       = Some (choice USER_AGENTS pick)
    /\ delete "User-Agent" (generate_headers pick).1
       = delete "User-Agent" (generate_headers pick').1
    /\ delete "User-Agent" (generate_headers pick).2
       = delete "User-Agent" (generate_headers pick').2
    /\ size (generate_headers pick).1 = 13%nat
    /\ size (generate_headers pick).2 = 15%nat.
Proof.
  apply (bool_decide_unpack _). vm_compute. exact I.
Qed.

End Identities.

(** ** The generated file, read back *)

Section GeneratedFile.
Import GenerateEmails EmailLoader.

Lemma whitespace_heads :
  Forall (fun w => forall i, head w <> Some (letters_and_digits !!! i))
    whitespace.
Proof. apply (bool_decide_unpack _). vm_compute. exact I. Qed.

Lemma whitespace_lasts :
  Forall (fun w => exists c, last w = Some c /\ c <> "m"%char) whitespace.
Proof.
  repeat constructor; (eexists; split; [reflexivity | discriminate]).
Qed.

Lemma generated_no_space_at_start picks :
  ~ space_at_start (generate_random_email picks).
Proof.
  inv_vec picks. intros i. intros. unfold space_at_start.
  intros (w & rest & Hw & Heq).
  pose proof (proj1 (Forall_forall _ _) whitespace_heads w Hw) as Hhead.
  unfold generate_random_email, choices in Heq.
  rewrite chars_app, list_ascii_of_string_of_list_ascii in Heq.
  simpl in Heq.
  apply (Hhead i). destruct w as [|c w]; simpl in *.
  - exfalso.
    apply (whitespace_nonempty [] Hw). reflexivity.
  - injection Heq as <- _. reflexivity.
Qed.

Lemma generated_no_space_at_end picks :
  ~ space_at_end (generate_random_email picks).
Proof.
  intros (w & front & Hw & Heq).
  pose proof (proj1 (Forall_forall _ _) whitespace_lasts w Hw)
    as (c & Hlast & Hc).
  apply (f_equal last) in Heq.
  unfold generate_random_email in Heq.
  rewrite chars_app, !last_app, Hlast in Heq. simpl in Heq.
  congruence.
Qed.

Lemma newline_spaces : spaces newline.
Proof.
  exists [encoded [10]]. split; [|reflexivity].
  constructor; [|constructor]. unfold whitespace. set_solver.
Qed.

Lemma generated_length picks :
  String.length (generate_random_email picks) = 20%nat.
Proof.
  unfold generate_random_email.
  assert (H : forall a b, String.length (a +:+ b)
                          = (String.length a + String.length b)%nat).
  { induction a as [|c a IH]; intros b; [reflexivity|].
    change (S (String.length (a +:+ b))
            = S (String.length a + String.length b)). rewrite IH. reflexivity. }
  rewrite H, choices_length. reflexivity.
Qed.

Lemma email_producer_cons line lines :
  email_producer (line :: lines)
  = email_producer [line] ++ email_producer lines.
Proof. unfold email_producer. simpl. rewrite app_nil_r. reflexivity. Qed.

Lemma written_line_read picks :
  email_producer [generate_random_email picks +:+ newline]
  = [generate_random_email picks].
Proof.
  unfold email_producer. simpl.
  assert (Hnil : spaces EmptyString)
    by (exists []; split; [constructor | reflexivity]).
  pose proof (strip_of_padded EmptyString (generate_random_email picks)
                newline Hnil newline_spaces
                (generated_no_space_at_start picks)
                (generated_no_space_at_end picks)) as Hstrip.
  change (EmptyString +:+ ?x) with x in Hstrip. rewrite Hstrip.
  destruct (String.eqb_spec (generate_random_email picks) EmptyString)
    as [Heq|_]; [|reflexivity].
  pose proof (generated_length picks) as Hlen. rewrite Heq in Hlen.
  discriminate.
Qed.

(** X17.  Whatever [generateEmails.py] draws, [email_producer] reading
    the file it writes puts exactly the e-mails the script generated, in
    the order they were written: 5000 of them, each of 20 characters,
    ending in [@gmail.com]. *)
Theorem generated_file_read_back :
  forall draws,
    email_producer (written_lines draws) = emails draws
    /\ length (emails draws) = 5000%nat
    /\ Forall (fun email =>
                 String.length email = 20%nat
                 /\ exists username, email = username +:+ "@gmail.com")
         (emails draws).
Proof.
  intros draws. unfold written_lines, emails.
  rewrite vec_to_list_map, length_fmap, length_vec_to_list.
  split; [|split; [reflexivity|]].
  - generalize (vec_to_list draws). intros l.
    induction l as [|picks l IH]; [reflexivity|].
    rewrite !fmap_cons, email_producer_cons, written_line_read, IH.
    reflexivity.
  - apply Forall_fmap, Forall_forall. intros picks _. simpl.
    split; [apply generated_length|]. eexists. reflexivity.
Qed.

End GeneratedFile.

(** ** Waiting on the bounded queue *)

Section Backpressure.
Import Worker Engine Log Ledger.

Lemma maxsize_kept emails_per_session n emails sched :
  Queue.maxsize (q (run emails_per_session sched (init n emails))) = 5000.
Proof.
  apply (run_induction emails_per_session n emails
           (fun s => Queue.maxsize (q s) = 5000)); [reflexivity|].
  intros s who i s' Hmax _ Hstep.
  apply sys_step_cases in Hstep
    as [(e & rest & q' & -> & Hp & Hput & ->)
       |(w & l & l' & q' & r' & ev & -> & Hl & Hst & ->)]; simpl.
  - unfold Queue.put in Hput. destruct (Queue.full (q s)); [discriminate|].
    injection Hput as <-. exact Hmax.
  - step_cases Hst; queue_cases; simpl; exact Hmax.
Qed.

Lemma whereabouts_length emails_per_session n emails sched :
  length (whereabouts (run emails_per_session sched (init n emails)))
  = length emails.
Proof.
  apply Permutation_length, (Permutation_count_occ string_dec).
  intros email.
  apply (whereabouts_counted emails_per_session n emails sched email).
Qed.

Lemma held_total_ge ws w l :
  ws !! w = Some l ->
  (length (held (at_ l)) <= length (held_total ws))%nat.
Proof.
  unfold held_total.
  revert w. induction ws as [|l0 ws IH]; intros [|w] Hw;
    try discriminate Hw; cbn [flat_map]; rewrite length_app.
  - injection Hw as ->. lia.
  - specialize (IH w Hw). lia.
Qed.

Lemma producer_puts emails_per_session i k :
  forall s,
    Queue.maxsize (q s) = 5000 ->
    (length (Queue.items (q s)) + k <= 5000)%nat ->
    (k <= length (pending s))%nat ->
    let s' := run emails_per_session (replicate k (Producer, i)) s in
    Queue.items (q s') = Queue.items (q s) ++ take k (pending s)
    /\ pending s' = drop k (pending s)
    /\ Queue.maxsize (q s') = 5000.
Proof.
  induction k as [|k IH]; intros s Hmax Hroom Hk.
  - simpl. rewrite app_nil_r, drop_0. auto.
  - destruct (pending s) as [|email rest] eqn:Hp; [simpl in Hk; lia|].
    cbn [replicate run sys_step]. rewrite Hp.
    unfold Queue.put, Queue.full, Queue.qsize. rewrite Hmax.
    destruct (Z.leb_spec 5000 (Z.of_nat (length (Queue.items (q s)))));
      [lia|]. cbn [andb default Z.ltb Z.compare]. unfold id.
    match goal with |- context [run _ _ ?s1] => specialize (IH s1) end.
    cbn [q pending Queue.items Queue.maxsize] in IH.
    rewrite length_app in IH. simpl in IH, Hk.
    destruct IH as (Hi & Hpend & Hm); [reflexivity | lia | lia |].
    cbn zeta. rewrite Hi, Hpend, Hm, <- app_assoc. auto.
Qed.

(** X18.  With at most 5000 e-mails in the input no [put] ever waits:
    along every interleaving the producer can put its next e-mail, and
    every worker that has not returned can take its next step, its
    re-enqueue of a failed candidate included, whatever the network
    answers. *)
Theorem fitting_input_never_waits emails_per_session n emails sched :
  (length emails <= 5000)%nat ->
  let s := run emails_per_session sched (init n emails) in
  (forall i, pending s <> [] ->
             is_Some (sys_step emails_per_session s Producer i))
  /\ (forall w l i,
        workers s !! w = Some l -> ~ returned l ->
        is_Some (sys_step emails_per_session s (WorkerThread w) i)).
Proof.
  intros Hfit s.
  pose proof (maxsize_kept emails_per_session n emails sched) as Hmax.
  pose proof (whereabouts_length emails_per_session n emails sched) as Hlen.
  fold s in Hmax, Hlen. unfold whereabouts in Hlen.
  rewrite !length_app in Hlen.
  split.
  - intros i Hp. simpl. destruct (pending s) as [|email rest]; [congruence|].
    unfold Queue.put, Queue.full, Queue.qsize. rewrite Hmax.
    simpl in Hlen.
    destruct (Z.leb_spec 5000 (Z.of_nat (length (Queue.items (q s)))));
      [lia|]. simpl. eauto.
  - intros w l i Hl Hnot. simpl. rewrite Hl.
    destruct (invariant_reachable emails_per_session n emails sched)
      as (_ & Hws & _). fold s in Hws.
    destruct (Hws w l Hl) as (_ & Hexit & _). unfold exit_inv in Hexit.
    pose proof (held_total_ge _ _ _ Hl) as Hheld.
    unfold returned in Hnot. unfold worker_step.
    destruct (at_ l) eqn:Hat; try (exfalso; tauto).
    + destruct (attempt_session l i) as [[? ?]|[? ?]]; eauto.
    + destruct (processed_in_session l <? emails_per_session);
        [destruct (Queue.get (q s)) as [[? ?]|]|]; eauto.
    + destruct (call_check_email email i) as [[[? ?]|]|]; eauto.
    + unfold Queue.put, Queue.full, Queue.qsize. rewrite Hmax.
      simpl in Hheld.
      destruct (Z.leb_spec 5000 (Z.of_nat (length (Queue.items (q s)))));
        [lia|]. simpl. eauto.
    + eauto.
    + destruct (Queue.task_done (q s)); eauto.
    + eauto.
Qed.

Lemma fitting_input_never_waits_witness :
  (length Fixtures.two_emails <= 5000)%nat
  /\ is_Some (sys_step 2 (run 2 [] (init 1 Fixtures.two_emails)) Producer
                Fixtures.no_session).
Proof.
  split; [simpl; lia|].
  apply (fitting_input_never_waits 2 1 Fixtures.two_emails []);
    [simpl; lia | discriminate].
Defined.

(** X19.  The bound of the queue is felt by a longer input: with more
    than 5000 e-mails and no worker taking any, the producer's first
    5000 puts go through in the order of the input, and then it waits in
    [put] with the rest. *)
Theorem producer_waits_when_full emails_per_session n emails i :
  (5000 < length emails)%nat ->
  let s := run emails_per_session (replicate 5000 (Producer, i))
             (init n emails) in
  Queue.items (q s) = take 5000 emails
  /\ pending s = drop 5000 emails
  /\ pending s <> []
  /\ sys_step emails_per_session s Producer i = None.
Proof.
  intros Hlong s.
  destruct (producer_puts emails_per_session i 5000 (init n emails))
    as (Hitems & Hpend & Hmax);
    [reflexivity | simpl; lia | simpl; lia |].
  fold s in Hitems, Hpend, Hmax.
  change (Queue.items (q (init n emails))) with (@nil string) in Hitems.
  change (pending (init n emails)) with emails in Hitems, Hpend.
  rewrite app_nil_l in Hitems.
  assert (Hne : pending s <> []).
  { rewrite Hpend. intros Hnil. apply (f_equal length) in Hnil.
    rewrite length_drop in Hnil. simpl in Hnil. lia. }
  split; [exact Hitems|]. split; [exact Hpend|]. split; [exact Hne|].
  cbn [sys_step]. destruct (pending s) as [|email rest]; [congruence|].
  unfold Queue.put, Queue.full, Queue.qsize.
  rewrite Hmax, Hitems, length_take.
  destruct (Z.leb_spec 5000 (Z.of_nat (5000 `min` length emails)));
    [reflexivity | lia].
Qed.

Lemma producer_waits_when_full_witness :
  (5000 < length ("first@x.com" :: replicate 5000 "a@x.com"))%nat
  /\ sys_step 2
       (run 2 (replicate 5000 (Producer, Fixtures.no_session))
          (init 1 ("first@x.com" :: replicate 5000 "a@x.com")))
       Producer Fixtures.no_session = None.
Proof.
  assert (Hlong : (5000 < length ("first@x.com" :: replicate 5000 "a@x.com"))%nat)
    by (cbn [length]; rewrite length_replicate; lia).
  split; [exact Hlong|].
  apply (producer_waits_when_full 2 1
           ("first@x.com" :: replicate 5000 "a@x.com")
           Fixtures.no_session Hlong).
Defined.

End Backpressure.

(** ** Mounting the adapters again and again *)

Section Mounting.

Lemma mount_mount prefix a b s :
  mount prefix a (mount prefix b s) = mount prefix a s.
Proof. unfold mount. simpl. rewrite insert_insert_eq. reflexivity. Qed.

Lemma mount_commute p1 p2 a b s :
  p1 <> p2 ->
  mount p1 a (mount p2 b s) = mount p2 b (mount p1 a s).
Proof.
  intros Hne. unfold mount. simpl. f_equal.
  apply insert_insert_ne. congruence.
Qed.

(** X20.  [get_csrf_token] and [check_email] mount their adapters on the
    session at every call; after the first call of either, a further call
    of either leaves the retry configuration mounted under each prefix of
    the session as it is, and no call touches what is mounted under
    another prefix than [http://] and [https://]. *)
Theorem mounting_settles s :
  EmailChecker.mount_adapters (GetCsrf.mount_adapters s)
  = GetCsrf.mount_adapters s
  /\ GetCsrf.mount_adapters (EmailChecker.mount_adapters s)
     = EmailChecker.mount_adapters s
  /\ GetCsrf.mount_adapters (GetCsrf.mount_adapters s)
     = GetCsrf.mount_adapters s
  /\ EmailChecker.mount_adapters (EmailChecker.mount_adapters s)
     = EmailChecker.mount_adapters s
  /\ (forall prefix,
        prefix <> "http://" -> prefix <> "https://" ->
        adapters (GetCsrf.mount_adapters s) !! prefix = adapters s !! prefix
        /\ adapters (EmailChecker.mount_adapters s) !! prefix
           = adapters s !! prefix).
Proof.
  assert (Hsame : forall a b,
             mount "http://" a (mount "https://" a
               (mount "http://" b (mount "https://" b s)))
             = mount "http://" a (mount "https://" a s)).
  { intros a b.
    rewrite (mount_commute "https://" "http://" a b) by discriminate.
    rewrite !mount_mount. reflexivity. }
  unfold EmailChecker.mount_adapters, GetCsrf.mount_adapters.
  split; [|split; [|split; [|split]]]; try apply Hsame.
  intros prefix H1 H2. unfold mount. simpl.
  rewrite !lookup_insert_ne by congruence. auto.
Qed.

Lemma mounting_settles_witness :
  "ftp://" <> "http://" /\ "ftp://" <> "https://"
  /\ adapters (EmailChecker.mount_adapters
                 (mount "ftp://" GetCsrf.retries {| adapters := ∅ |}))
       !! "ftp://"
     = Some GetCsrf.retries.
Proof.
  split; [discriminate|]. split; [discriminate|].
  destruct (mounting_settles
              (mount "ftp://" GetCsrf.retries {| adapters := ∅ |}))
    as (_ & _ & _ & _ & Hother).
  destruct (Hother "ftp://") as [_ Hpost]; [discriminate | discriminate |].
  rewrite Hpost. reflexivity.
Defined.

End Mounting.
